(** * CustomTTSGPT: the streaming text-to-speech pipeline

    A shallow embedding of the pure parts of [local/sandbox.py] (the same
    functions appear as methods of [ChatBot] in [server/chatbot.py]):

    - [get_remaining_chars_to_send], the alignment computation that decides
      what has to be sent again after the provider closed the connection;
    - [text_chunker], the word splitter between the completion stream and
      the provider;
    - [MPVProcessSingleton], the handle of the playback process;
    - [chat_completion], [send_text], [listen] and [stream], the four
      stages around them, each over the items its queue or connection
      delivers, and the retry branch of [text_to_speech_input_streaming].

    Python values are modelled as follows.  A [str] is the list of its code
    points; a list of characters (as [chars_to_send] and [chars_received]
    are) is a list of [str], because that is what Python has: the elements
    are strings, usually of length one.  A function that can raise returns
    a [result]. *)

From Stdlib Require Import String Ascii.
From Stdlib Require Import List NArith Arith Bool Lia.
Import ListNotations.

(** ** Python strings and lists *)

Module Py.

(** A Python [str]: its code points, in order. *)
Definition str := list N.

(** An ASCII literal as a Python [str]. *)
Definition lit (s : string) : str :=
  map N_of_ascii (list_ascii_of_string s).

(** [list(s)]: the one-character strings of [s]. *)
Definition chars (s : str) : list str := map (fun c => [c]) s.

(** ["".join(l)] *)
Definition join (l : list str) : str := List.concat l.

(** [a == b] on strings. *)
Fixpoint str_eqb (a b : str) : bool :=
  match a, b with
  | [], [] => true
  | x :: a', y :: b' => N.eqb x y && str_eqb a' b'
  | _, _ => false
  end.

(** Position of the first element equal to [x], if any. *)
Fixpoint find_first (x : str) (l : list str) : option nat :=
  match l with
  | [] => None
  | y :: l' => if str_eqb y x then Some 0 else option_map S (find_first x l')
  end.

(** [l.index(x, start)]: the first position at or after [start] that holds
    [x]; [None] stands for the [ValueError] Python raises when there is
    none. *)
Definition index (l : list str) (x : str) (start : nat) : option nat :=
  option_map (fun k => start + k) (find_first x (skipn start l)).

(** A dict with string keys and values, in insertion order, and
    [d.get(k, default)]. *)
Definition dict := list (str * str).

Fixpoint get (d : dict) (k default : str) : str :=
  match d with
  | [] => default
  | (k', v) :: d' => if str_eqb k' k then v else get d' k default
  end.

(** Outcome of a call: a value, or a raised exception. *)
Inductive exn : Type :=
| Exception (msg_char : str)
| ValueError.

Inductive result (A : Type) : Type :=
| Ok (a : A)
| Raised (e : exn).
Arguments Ok {A} a.
Arguments Raised {A} e.

End Py.

Import Py.

Definition space : N := 32.
Definition newline : str := [10%N].

(** ** The alignment computation *)

Module Alignment.

(** The table of [custom_decode]. *)
Definition special_chars : dict :=
  [ ([0x2018%N], lit "'");     (* Left single quotation mark *)
    ([0x2019%N], lit "'");     (* Right single quotation mark *)
    ([0x201C%N], [34%N]);      (* Left double quotation mark *)
    ([0x201D%N], [34%N]);      (* Right double quotation mark *)
    ([0x2013%N], lit "-");     (* En dash *)
    ([0x2014%N], lit "-");     (* Em dash *)
    ([0x2026%N], lit "...");   (* Horizontal ellipsis *)
    ([0x2022%N], lit "*");     (* Bullet *)
    ([0x00A3%N], lit "GBP");   (* Pound sign *)
    ([0x20AC%N], lit "EUR");   (* Euro sign *)
    ([0x00D7%N], lit "x");     (* Multiplication sign *)
    ([0x00F7%N], lit "/") ].   (* Division sign *)

Definition custom_decode (char : str) : str :=
  get special_chars char char.

Definition displacement_tolerance : nat := 2.

(** What one turn of the [for] loop does with the cursor [j]: go on to
    the next [i] with a new cursor, leave the loop with
    [continue_point = i], or raise. *)
Inductive flow : Type :=
| Next (j : nat)
| Break
| Raise (e : exn).

(** The body of the loop, for the character [char] of
    [chars_to_send_formatted] and the cursor [j] over
    [chars_received_formatted]. *)
Definition loop_body (received : list str) (char : str) (j : nat) : flow :=
  if str_eqb char newline then Next j
  else if j <? length received then
    match index received char j with
    | Some index_of_next_matching_char =>
        if index_of_next_matching_char =? j then Next (j + 1)
        else if index_of_next_matching_char - j <=? displacement_tolerance
             then Next (index_of_next_matching_char + 1)
             else Raise (Exception char)
    | None => Break
    end
  else Break.

(** The loop from index [i] on, over the characters that are left;
    the value is [continue_point] when the loop ends. *)
Fixpoint for_loop (received : list str) (to_send : list str)
         (i j : nat) : result (option nat) :=
  match to_send with
  | [] => Ok None
  | char :: rest =>
      match loop_body received char j with
      | Next j' => for_loop received rest (S i) j'
      | Break => Ok (Some i)
      | Raise e => Raised e
      end
  end.

(** [continue_point] after the loop. *)
Definition continue_point (chars_to_send chars_received : list str)
  : result (option nat) :=
  let chars_to_send_formatted := map custom_decode chars_to_send in
  let chars_received_formatted := tl chars_received in
  for_loop chars_received_formatted chars_to_send_formatted 0 0.

Definition get_remaining_chars_to_send
           (chars_to_send chars_received : list str) : result (list str) :=
  match continue_point chars_to_send chars_received with
  | Raised e => Raised e
  | Ok None => Ok []
  | Ok (Some i) => Ok (skipn i chars_to_send)
  end.

(** The cursor with which the loop arrives behind the characters
    [to_send], when it gets there (no turn left the loop or raised). *)
Fixpoint cursor_after (received : list str) (to_send : list str)
         (j : nat) : option nat :=
  match to_send with
  | [] => Some j
  | char :: rest =>
      match loop_body received char j with
      | Next j' => cursor_after received rest j'
      | _ => None
      end
  end.

(** The same turn seen from the cursor: [ahead] is what lies in
    [chars_received_formatted] from [j] on, and [Next d] moves the cursor
    [d] places. *)
Definition body_ahead (ahead : list str) (char : str) : flow :=
  if str_eqb char newline then Next 0
  else match ahead with
       | [] => Break
       | _ :: _ =>
           match find_first char ahead with
           | Some d =>
               if d =? 0 then Next 1
               else if d <=? displacement_tolerance then Next (d + 1)
               else Raise (Exception char)
           | None => Break
           end
       end.

Definition moved (j : nat) (f : flow) : flow :=
  match f with
  | Next d => Next (j + d)
  | _ => f
  end.

(** [chars_received] without the elements that stand between the
    cursor [j] and the position [k] (both counted behind the leading
    artifact): what is at [k] comes to stand at [j]. *)
Definition exact_position (chars_received : list str) (j k : nat)
  : list str :=
  firstn (S j) chars_received ++ skipn (S k) chars_received.

(** The characters the table turns into three. *)
Definition pound : str := [0x00A3%N].
Definition euro : str := [0x20AC%N].
Definition ellipsis : str := [0x2026%N].

End Alignment.

(** ** The word chunker *)

Module Chunker.

(** What travels on a queue: a text, or [None] for the end. *)
Definition item := option str.

(** The local variable [buffer] and the items put on [output_queue] so
    far, oldest first. *)
Record state : Type := mkState {
  buffer : str;
  output_queue : list item
}.

Definition put_in_queue (data : item) (st : state) : state :=
  mkState (buffer st) (output_queue st ++ [data]).

(** [if buffer: put(buffer + " "); buffer = ""] *)
Definition flush (st : state) : state :=
  match buffer st with
  | [] => st
  | _ :: _ =>
      let st' := put_in_queue (Some (buffer st ++ [space])) st in
      mkState [] (output_queue st')
  end.

(** The body of [for char in text]. *)
Definition on_char (st : state) (char : N) : state :=
  if N.eqb char space then flush st
  else mkState (buffer st ++ [char]) (output_queue st).

Definition for_chars (text : str) (st : state) : state :=
  fold_left on_char text st.

(** The [while True] loop over what [input_queue] delivers.  The flag
    tells whether the loop was left ([break]); on an input without
    [None] the coroutine stays suspended in [get]. *)
Fixpoint while_loop (input_queue : list item) (st : state) : state * bool :=
  match input_queue with
  | [] => (st, false)
  | None :: _ => (put_in_queue None (flush st), true)
  | Some text :: rest => while_loop rest (for_chars text st)
  end.

(** The items [text_chunker] puts on its output queue. *)
Definition text_chunker (input_queue : list item) : list item :=
  output_queue (fst (while_loop input_queue (mkState [] []))).

Definition terminates (input_queue : list item) : bool :=
  snd (while_loop input_queue (mkState [] [])).

(** The texts among the items of a queue. *)
Fixpoint texts (q : list item) : list str :=
  match q with
  | [] => []
  | Some t :: q' => t :: texts q'
  | None :: q' => texts q'
  end.

(** A fragment stream closed by the end marker. *)
Definition stream (fragments : list str) : list item :=
  map Some fragments ++ [None].

(** One trailing space taken off a text. *)
Definition strip_space (u : str) : str :=
  match rev u with
  | c :: r => if N.eqb c space then rev r else u
  | [] => u
  end.

(** The units put together again, the last one without its space. *)
Fixpoint reassemble (units : list str) : str :=
  match units with
  | [] => []
  | [u] => strip_space u
  | u :: us => u ++ reassemble us
  end.

(** A text unit: a word without a space in it, and one space behind. *)
Definition text_unit (u : str) : Prop :=
  exists word, u = word ++ [space] /\ word <> [] /\ ~ In space word.

(** The units that come out of a text read with [word] in the buffer,
    and of the flush at the end. *)
Fixpoint units_of (word : str) (text : str) : list str :=
  match text with
  | [] => match word with [] => [] | _ => [word ++ [space]] end
  | c :: text' =>
      if N.eqb c space
      then match word with
           | [] => units_of [] text'
           | _ => (word ++ [space]) :: units_of [] text'
           end
      else units_of (word ++ [c]) text'
  end.

(** No space in front, none at the end, no two in a row:
    [spaced after_space t] reads [t] knowing whether a space (or the
    start) came just before. *)
Fixpoint spaced (after_space : bool) (t : str) : bool :=
  match t with
  | [] => negb after_space
  | c :: t' =>
      if N.eqb c space then negb after_space && spaced true t'
      else spaced false t'
  end.

Definition single_spaced (t : str) : bool :=
  match t with
  | [] => true
  | _ => spaced true t
  end.

End Chunker.

(** ** The playback process *)

Module MPV.

(** A [Popen] object, named by the order of its launch. *)
Definition handle := nat.

(** What the class sees of the machine: the programs [shutil.which]
    finds, the return code [poll] reports for a process ([None] while it
    runs), and the launches made so far. *)
Record world : Type := mkWorld {
  which : str -> option str;
  poll : handle -> option Z;
  launched : list handle
}.

(** The one instance: its attribute [process]. *)
Record MPVProcessSingleton : Type := mkSingleton {
  process : option handle
}.

Definition is_installed (w : world) (lib_name : str) : bool :=
  match which w lib_name with
  | Some _ => true
  | None => false
  end.

(** [subprocess.Popen(...)]: a process the machine has not seen yet. *)
Definition Popen (w : world) : handle * world :=
  let p := length (launched w) in
  (p, mkWorld (which w) (poll w) (launched w ++ [p])).

Definition start_process (w : world) (self : MPVProcessSingleton)
  : result unit * world * MPVProcessSingleton :=
  if negb (is_installed w (lit "mpv")) then (Raised ValueError, w, self)
  else
    let start :=
      let (p, w') := Popen w in (Ok tt, w', mkSingleton (Some p)) in
    match process self with
    | None => start
    | Some p =>
        match poll w p with
        | Some _ => start
        | None => (Ok tt, w, self)
        end
    end.

End MPV.

(** ** Notions used to state what the alignment returns *)

Module Resync.

Import Alignment.

Definition is_newline (char : str) : bool := str_eqb char newline.

(** The elements the loop compares: all but the line breaks, which it
    passes with [continue]. *)
Definition voiced (to_send : list str) : list str :=
  filter (fun char => negb (is_newline char)) to_send.

(** A list without the line breaks at its front. *)
Fixpoint drop_newlines (to_send : list str) : list str :=
  match to_send with
  | [] => []
  | char :: rest =>
      if is_newline char then drop_newlines rest else to_send
  end.

End Resync.

(** ** When the confirmed characters repeat the sent ones *)

Module Echo.

Import Alignment Resync.

(** An element that is not a character of the table: the normalization
    returns it as it is. *)
Definition untouched (char : str) : Prop := custom_decode char = char.

(** No element other than a line break stands behind more line breaks
    in a row than the tolerance; [breaks] counts the line breaks just
    passed. *)
Fixpoint short_breaks (breaks : nat) (to_send : list str) : bool :=
  match to_send with
  | [] => true
  | char :: rest =>
      if is_newline char then short_breaks (S breaks) rest
      else (breaks <=? displacement_tolerance) && short_breaks 0 rest
  end.

(** A received element that a normalized character can be found at: it
    is no line break, and normalized it is itself. *)
Definition matchable (char : str) : bool :=
  negb (is_newline char) && str_eqb (custom_decode char) char.

End Echo.

(** ** Notions used to state what the chunker emits *)

Module Words.

(** A text without its spaces. *)
Definition no_spaces (t : str) : str :=
  filter (fun c => negb (N.eqb c space)) t.

End Words.

(** ** The completion stream *)

Module Completion.

Import Chunker.

(** [chunk.choices[0].delta]. *)
Record delta : Type := mkDelta {
  content : option str;
  role : option str
}.

(** The dict that [chat_completion] returns. *)
Record ret_val : Type := mkRet {
  ret_role : option str;
  ret_content : str
}.

(** The local variables, and the two objects the caller passed and
    [chat_completion] writes to. *)
Record locals : Type := mkLocals {
  role_var : option str;
  response_content : list str;
  text_queue : list item;
  chars_to_send : list str
}.

(** [for char in delta.content: chars_to_send.append(char)] *)
Definition track (text : str) (chars_to_send : list str) : list str :=
  fold_left (fun l char => l ++ [[char]]) text chars_to_send.

(** The body of [async for chunk in response]: the locals after it, and
    the value when it returns. *)
Definition on_delta (d : delta) (st : locals)
  : locals * option ret_val :=
  let st1 :=
    match content d with
    | Some [] =>
        mkLocals (role d) (response_content st) (text_queue st)
                 (chars_to_send st)
    | _ => st
    end in
  match content d with
  | Some [] => (st1, None)
  | Some text =>
      (mkLocals (role_var st1) (response_content st1 ++ [text])
                (text_queue st1 ++ [Some text])
                (track text (chars_to_send st1)),
       None)
  | None =>
      (mkLocals (role_var st1) (response_content st1)
                (text_queue st1 ++ [None]) (chars_to_send st1),
       Some (mkRet (role_var st1) (join (response_content st1))))
  end.

Fixpoint async_for (response : list delta) (st : locals)
  : locals * option ret_val :=
  match response with
  | [] => (st, None)
  | d :: rest =>
      match on_delta d st with
      | (st', None) => async_for rest st'
      | (st', Some r) => (st', Some r)
      end
  end.

(** [chat_completion], over the chunks the completion call streams. *)
Definition chat_completion (response : list delta)
           (text_queue : list item) (chars_to_send : list str)
  : locals * option ret_val :=
  async_for response (mkLocals None [] text_queue chars_to_send).

(** The contents that are put on the queue: those that are a text and
    not the empty one. *)
Fixpoint spoken (response : list delta) : list str :=
  match response with
  | [] => []
  | d :: rest =>
      match content d with
      | Some (c :: text) => (c :: text) :: spoken rest
      | _ => spoken rest
      end
  end.

(** A chunk with a content, empty or not. *)
Definition has_content (d : delta) : Prop := content d <> None.

End Completion.

(** ** The invariant of the completion loop *)

Module Ledger.

Import Chunker Completion.

(** What the loop keeps: the ledger spells the texts queued, none of
    them is empty, and the contents collected are those texts. *)
Definition ledger_ok (st : locals) : Prop :=
  chars_to_send st = chars (join (texts (text_queue st)))
  /\ Forall (fun t : str => t <> []) (texts (text_queue st))
  /\ response_content st = texts (text_queue st).

End Ledger.

(** ** The link to the provider *)

Module Link.

Import Chunker.

Definition bytes := list Byte.byte.

(** How a coroutine ends: it returns, it stays suspended in a [get] or
    [recv] that nothing answers, or it raises. *)
Inductive ending : Type :=
| Finished
| Suspended
| ConnectionClosed
| ValueErrorRaised
| AttributeErrorRaised.

(** The dict [send_text] serializes and sends. *)
Record text_message : Type := mkText {
  text : str;
  try_trigger_generation : option bool
}.

(** The sending side of the websocket: the frames sent, and how many
    more the connection takes before the remote side has closed it
    ([None]: it stays open). *)
Record websocket : Type := mkSocket {
  outbound : list text_message;
  sends_left : option nat
}.

(** [websocket.send]; [None] for [ConnectionClosed]. *)
Definition send (m : text_message) (ws : websocket) : option websocket :=
  match sends_left ws with
  | Some 0 => None
  | Some (S n) => Some (mkSocket (outbound ws ++ [m]) (Some n))
  | None => Some (mkSocket (outbound ws ++ [m]) None)
  end.

Fixpoint send_text (ws : websocket) (chunked_text_queue : list item)
  : websocket * ending :=
  match chunked_text_queue with
  | [] => (ws, Suspended)
  | None :: _ =>
      match send (mkText [] None) ws with
      | Some ws' => (ws', Finished)
      | None => (ws, ConnectionClosed)
      end
  | Some chunked_text :: rest =>
      match send (mkText chunked_text (Some false)) ws with
      | Some ws' => send_text ws' rest
      | None => (ws, ConnectionClosed)
      end
  end.


(** A frame of the provider, parsed: the keys [listen] reads. *)
Record alignment : Type := mkAlignment {
  alignment_chars : option (list str)
}.

Record message : Type := mkMessage {
  audio : option str;
  normalizedAlignment : option alignment;
  isFinal : option bool
}.

(** The two objects [listen] writes to. *)
Record heard : Type := mkHeard {
  audio_queue : list (option bytes);
  chars_received : list str
}.

(** The characters a message confirms. *)
Definition confirmed_by (data : message) : list str :=
  match normalizedAlignment data with
  | Some al =>
      match alignment_chars al with
      | Some cs => cs
      | None => []
      end
  | None => []
  end.

Definition is_final (data : message) : bool :=
  match isFinal data with
  | Some true => true
  | _ => false
  end.

(** [listen], over the messages the provider delivers; [closes] tells
    whether the remote side closes the connection behind them.
    [b64decode] is [base64.b64decode], [None] where it raises
    [binascii.Error], a [ValueError]. *)
Fixpoint listen (b64decode : str -> option bytes)
         (inbound : list message) (closes : bool) (st : heard)
  : heard * ending :=
  match inbound with
  | [] => (st, if closes then ConnectionClosed else Suspended)
  | data :: rest =>
      let after_audio :=
        match audio data with
        | Some (c :: a) =>
            match b64decode (c :: a) with
            | Some audio_data =>
                Some (mkHeard (audio_queue st ++ [Some audio_data])
                              (chars_received st))
            | None => None
            end
        | _ => Some st
        end in
      match after_audio with
      | None => (st, ValueErrorRaised)
      | Some st1 =>
          let st2 :=
            match normalizedAlignment data with
            | Some al =>
                match alignment_chars al with
                | Some (c :: cs) =>
                    mkHeard (audio_queue st1)
                            (chars_received st1 ++ c :: cs)
                | _ => st1
                end
            | None => st1
            end in
          if is_final data
          then (mkHeard (audio_queue st2 ++ [None]) (chars_received st2),
                Finished)
          else listen b64decode rest closes st2
      end
  end.

(** The audio a message carries, decoded. *)
Definition audio_of (b64decode : str -> option bytes) (data : message)
  : list bytes :=
  match audio data with
  | Some (c :: a) =>
      match b64decode (c :: a) with
      | Some audio_data => [audio_data]
      | None => []
      end
  | _ => []
  end.

(** The audio of a message can be decoded. *)
Definition decodable (b64decode : str -> option bytes) (data : message)
  : Prop :=
  match audio data with
  | Some (c :: a) => b64decode (c :: a) <> None
  | _ => True
  end.

End Link.

(** ** Playing the audio *)

Module Playback.

Import MPV Link.

(** The class attribute [_instance]: the one instance, once it exists,
    in the state it is in. *)
Definition class_state := option MPVProcessSingleton.

(** [MPVProcessSingleton()] *)
Definition new (cls : class_state) : MPVProcessSingleton :=
  match cls with
  | None => mkSingleton None
  | Some self => self
  end.

(** The standard inputs of the processes: the chunks written, in order,
    and the inputs closed. *)
Record pipes : Type := mkPipes {
  written : list (handle * bytes);
  closed : list handle
}.

Record machine : Type := mkMachine {
  the_world : world;
  the_pipes : pipes;
  the_class : class_state
}.

(** [stop_process]: close the input, wait for the end of the process
    ([returncode] is what it ends with, unless it had ended), forget
    it. *)
Definition stop_process (returncode : Z) (w : world) (io : pipes)
           (self : MPVProcessSingleton)
  : world * pipes * MPVProcessSingleton :=
  match process self with
  | Some p =>
      let code := match poll w p with Some c => c | None => returncode end in
      (mkWorld (which w)
               (fun h => if h =? p then Some code else poll w h)
               (launched w),
       mkPipes (written io) (closed io ++ [p]),
       mkSingleton None)
  | None => (w, io, self)
  end.

(** The loop of [stream] over the audio queue: the chunks written to
    [mpv_process], and whether the loop was left. *)
Fixpoint write_loop (mpv_process : option handle)
         (audio_queue : list (option bytes)) (io : pipes)
  : pipes * ending :=
  match audio_queue with
  | [] => (io, Suspended)
  | None :: _ => (io, Finished)
  | Some chunk :: rest =>
      match mpv_process with
      | None => (io, AttributeErrorRaised)
      | Some p =>
          write_loop mpv_process rest
                     (mkPipes (written io ++ [(p, chunk)]) (closed io))
      end
  end.

(** [stream] of [local/sandbox.py]. *)
Definition stream (returncode : Z) (audio_queue : list (option bytes))
           (m : machine) : machine * ending :=
  let mpv_singleton := new (the_class m) in
  match start_process (the_world m) mpv_singleton with
  | (Raised _, w, self) =>
      (mkMachine w (the_pipes m) (Some self), ValueErrorRaised)
  | (Ok _, w, self) =>
      let mpv_process := process self in
      match write_loop mpv_process audio_queue (the_pipes m) with
      | (io, Finished) =>
          let '(w', io', self') := stop_process returncode w io self in
          (mkMachine w' io' (Some self'), Finished)
      | (io, e) => (mkMachine w io (Some self), e)
      end
  end.

(** The chunks of a queue in front of its first end marker. *)
Fixpoint chunks_of (audio_queue : list (option bytes)) : list bytes :=
  match audio_queue with
  | Some chunk :: rest => chunk :: chunks_of rest
  | _ => []
  end.

End Playback.

(** ** The session: retry and history *)

Module Session.

Import Chunker Alignment.

(** What the [except ConnectionClosed] branch of
    [text_to_speech_input_streaming] sets up for the next attempt. *)
Record attempt : Type := mkAttempt {
  text_queue : list item;
  chars_to_send : list str;
  chars_received : list str;
  chunked_text_queue : list item
}.

Definition on_connection_closed (chars_to_send chars_received : list str)
  : result attempt :=
  match get_remaining_chars_to_send chars_to_send chars_received with
  | Raised e => Raised e
  | Ok remaining_chars =>
      Ok (mkAttempt [Some (join remaining_chars); None]
                    remaining_chars [] [])
  end.

(** [l[-n:]] for a positive [n]. *)
Definition last_n {A : Type} (n : nat) (l : list A) : list A :=
  skipn (length l - n) l.

(** [main] of [local/sandbox.py]: the history with the query appended,
    as it is handed to [chat_completion]. *)
Definition with_query {A : Type} (messages : list A) (query : A) : list A :=
  let messages := messages ++ [query] in
  if 10 <? length messages then last_n 10 messages else messages.

(** [ChatBot.main] of [server/chatbot.py]: the history with the query
    appended. *)
Definition server_with_query {A : Type} (message_history : list A)
           (query : A) : list A :=
  let message_history := message_history ++ [query] in
  if 10 <? length message_history then last_n 1 message_history
  else message_history.

End Session.

(** * Properties *)

(** ** Strings and lists *)

Section PyFacts.

Lemma str_eqb_eq (a b : str) : str_eqb a b = true <-> a = b.
Proof.
  revert b; induction a as [|x a IH]; intros [|y b]; simpl;
    try (split; intro; congruence).
  rewrite andb_true_iff, N.eqb_eq, IH.
  split; [intros [-> ->]; reflexivity | intro E; inversion E; auto].
Qed.

Lemma str_eqb_refl (a : str) : str_eqb a a = true.
Proof. apply str_eqb_eq; reflexivity. Qed.

Lemma str_eqb_neq (a b : str) : str_eqb a b = false <-> a <> b.
Proof.
  rewrite <- str_eqb_eq. destruct (str_eqb a b); split; congruence.
Qed.

Lemma find_first_bound (x : str) (l : list str) (d : nat) :
  find_first x l = Some d -> d < length l.
Proof.
  revert d; induction l as [|y l IH]; simpl; intros d H; [discriminate|].
  destruct (str_eqb y x).
  - inversion H; lia.
  - destruct (find_first x l) as [d'|]; [|discriminate].
    inversion H; subst. specialize (IH d' eq_refl). lia.
Qed.

Lemma find_first_none (x : str) (l : list str) :
  find_first x l = None <-> ~ In x l.
Proof.
  induction l as [|y l IH]; simpl; [tauto|].
  destruct (str_eqb y x) eqn:E.
  - apply str_eqb_eq in E. split; [discriminate | intro H; exfalso; auto].
  - apply str_eqb_neq in E.
    destruct (find_first x l); simpl.
    + split; [discriminate|]. intro H. exfalso. apply H. right.
      destruct (in_dec (list_eq_dec N.eq_dec) x l) as [Hin|Hout]; [exact Hin|].
      apply IH in Hout; discriminate.
    + split; [|reflexivity]. intros _ [H|H]; [auto | apply IH in H; auto].
Qed.

(** A match in the front part of a list does not depend on the rest. *)
Lemma find_first_app (x : str) (l r : list str) (d : nat) :
  find_first x l = Some d -> find_first x (l ++ r) = Some d.
Proof.
  revert d; induction l as [|y l IH]; simpl; intros d H; [discriminate|].
  destruct (str_eqb y x); [exact H|].
  destruct (find_first x l) as [d'|]; [|discriminate].
  rewrite (IH d' eq_refl). exact H.
Qed.

Lemma find_first_front (x : str) (l r : list str) (d : nat) :
  find_first x (l ++ r) = Some d -> d < length l -> find_first x l = Some d.
Proof.
  revert d; induction l as [|y l IH]; simpl; intros d H L; [lia|].
  destruct (str_eqb y x); [exact H|].
  destruct (find_first x (l ++ r)) as [d'|]; [|discriminate].
  inversion H; subst. rewrite (IH d' eq_refl); [reflexivity | simpl in L; lia].
Qed.

Lemma find_first_skip (x : str) (l r : list str) :
  ~ In x l ->
  find_first x (l ++ r)
  = option_map (fun d => length l + d) (find_first x r).
Proof.
  induction l as [|y l IH]; simpl; intro H.
  - destruct (find_first x r); reflexivity.
  - destruct (str_eqb y x) eqn:E.
    + apply str_eqb_eq in E. exfalso; auto.
    + rewrite IH by tauto. destruct (find_first x r); reflexivity.
Qed.

Lemma find_first_hit (x : str) (l : list str) (d : nat) :
  find_first x l = Some d ->
  nth_error l d = Some x /\ ~ In x (firstn d l).
Proof.
  revert d; induction l as [|y l IH]; simpl; intros d H; [discriminate|].
  destruct (str_eqb y x) eqn:E.
  - inversion H; subst. apply str_eqb_eq in E; subst. simpl. auto.
  - destruct (find_first x l) as [d'|]; [|discriminate].
    inversion H; subst. destruct (IH d' eq_refl) as [A B].
    apply str_eqb_neq in E. simpl. split; [exact A|]. intros [F|F]; auto.
Qed.

End PyFacts.

(** ** The alignment loop *)

Section AlignmentFacts.

Import Alignment.

Lemma skipn_cons_nth (l : list str) (k : nat) (x : str) :
  nth_error l k = Some x -> skipn k l = x :: skipn (S k) l.
Proof.
  revert k; induction l as [|y l IH]; intros [|k] H; simpl in *;
    try discriminate.
  - inversion H; reflexivity.
  - rewrite (IH k H). destruct l; reflexivity.
Qed.

(** A turn of the loop looks only at what lies ahead of the cursor. *)
Lemma loop_body_ahead (received : list str) (char : str) (j : nat) :
  loop_body received char j = moved j (body_ahead (skipn j received) char).
Proof.
  unfold loop_body, body_ahead, index.
  destruct (str_eqb char newline); simpl.
  - rewrite Nat.add_0_r; reflexivity.
  - destruct (j <? length received) eqn:B.
    + apply Nat.ltb_lt in B.
      destruct (skipn j received) as [|y ahead] eqn:ES.
      * apply (f_equal (@length str)) in ES. rewrite length_skipn in ES.
        simpl in ES; lia.
      * destruct (find_first char (y :: ahead)) as [d|]; simpl; [|reflexivity].
        replace (j + d - j) with d by lia.
        destruct d as [|d]; simpl.
        -- rewrite Nat.add_0_r, Nat.eqb_refl; reflexivity.
        -- replace (j + S d =? j) with false
             by (symmetry; apply Nat.eqb_neq; lia).
           destruct (d <=? 1); simpl; [f_equal; lia | reflexivity].
    + apply Nat.ltb_ge in B. rewrite skipn_all2 by exact B. reflexivity.
Qed.

Lemma loop_body_next (received : list str) (char : str) (j j' : nat) :
  loop_body received char j = Next j' ->
  exists d, body_ahead (skipn j received) char = Next d /\ j' = j + d.
Proof.
  rewrite loop_body_ahead.
  destruct (body_ahead (skipn j received) char) as [d| |e]; simpl;
    intro H; inversion H. eauto.
Qed.

(** Two runs whose cursors have the same characters ahead end alike. *)
Lemma for_loop_ahead (to_send : list str) :
  forall (r1 r2 : list str) (i j1 j2 : nat),
    skipn j1 r1 = skipn j2 r2 ->
    for_loop r1 to_send i j1 = for_loop r2 to_send i j2.
Proof.
  induction to_send as [|char rest IH]; intros r1 r2 i j1 j2 E; simpl;
    [reflexivity|].
  rewrite !loop_body_ahead, E.
  destruct (body_ahead (skipn j2 r2) char) as [d| |e]; simpl; try reflexivity.
  apply IH.
  rewrite (Nat.add_comm j1), (Nat.add_comm j2), <- !skipn_skipn, E.
  reflexivity.
Qed.

(** The loop behind a part it has passed. *)
Lemma for_loop_app (received before rest : list str) :
  forall (i j j' : nat),
    cursor_after received before j = Some j' ->
    for_loop received (before ++ rest) i j
    = for_loop received rest (length before + i) j'.
Proof.
  induction before as [|char before IH]; intros i j j' H; simpl in *.
  - inversion H; reflexivity.
  - destruct (loop_body received char j) as [j1| |e]; try discriminate.
    rewrite (IH (S i) j1 j' H). f_equal. lia.
Qed.

Lemma cursor_after_mono (received to_send : list str) :
  forall j j', cursor_after received to_send j = Some j' -> j <= j'.
Proof.
  induction to_send as [|char rest IH]; intros j j' H; simpl in *.
  - inversion H; lia.
  - destruct (loop_body received char j) as [j1| |e] eqn:B; try discriminate.
    apply loop_body_next in B. destruct B as (d & _ & ->).
    apply IH in H. lia.
Qed.

(** What a turn finds does not depend on what lies behind where the
    cursor ends up. *)
Lemma body_ahead_front (front x y : list str) (char : str) (d : nat) :
  body_ahead (front ++ x) char = Next d ->
  d <= length front ->
  body_ahead (front ++ y) char = Next d.
Proof.
  unfold body_ahead.
  destruct (str_eqb char newline); [auto|].
  destruct front as [|c front]; simpl length.
  - intros H L. exfalso. simpl in H.
    destruct x as [|x0 x]; [discriminate|].
    destruct (find_first char (x0 :: x)) as [fd|]; [|discriminate].
    destruct (fd =? 0); [inversion H; lia|].
    destruct (fd <=? displacement_tolerance); inversion H; lia.
  - intros H L.
    change ((c :: front) ++ x) with (c :: (front ++ x)) in H.
    change ((c :: front) ++ y) with (c :: (front ++ y)).
    cbv iota in *.
    change (c :: (front ++ x)) with ((c :: front) ++ x) in H.
    change (c :: (front ++ y)) with ((c :: front) ++ y).
    destruct (find_first char ((c :: front) ++ x)) as [fd|] eqn:F;
      [|discriminate].
    assert (fd < length (c :: front)) as B.
    { simpl length. destruct (fd =? 0) eqn:Z.
      - apply Nat.eqb_eq in Z; lia.
      - destruct (fd <=? displacement_tolerance); inversion H; lia. }
    apply find_first_front in F; [|exact B].
    rewrite (find_first_app _ _ y _ F). exact H.
Qed.

Lemma body_ahead_bound (ahead : list str) (char : str) (d : nat) :
  body_ahead ahead char = Next d -> d <= length ahead.
Proof.
  unfold body_ahead.
  destruct (str_eqb char newline); [intro H; inversion H; lia|].
  destruct ahead as [|y ahead]; [discriminate|].
  destruct (find_first char (y :: ahead)) as [fd|] eqn:F; [|discriminate].
  apply find_first_bound in F.
  destruct (fd =? 0); [intro H; inversion H; simpl; lia|].
  destruct (fd <=? displacement_tolerance); intro H; inversion H; lia.
Qed.

(** The way to a cursor [j] is the same when the elements from [j] to
    [k] are taken out of the received characters. *)
Lemma cursor_after_front (received to_send : list str) (k : nat) :
  forall j0 j,
    cursor_after received to_send j0 = Some j ->
    cursor_after (firstn j received ++ skipn k received) to_send j0 = Some j.
Proof.
  induction to_send as [|char rest IH]; intros j0 j H; simpl in *; [exact H|].
  destruct (loop_body received char j0) as [j1| |e] eqn:B; try discriminate.
  apply loop_body_next in B. destruct B as (d & B & ->).
  pose proof (cursor_after_mono _ _ _ _ H) as M.
  pose proof (body_ahead_bound _ _ _ B) as L.
  rewrite length_skipn in L.
  rewrite loop_body_ahead.
  assert (skipn j0 received
          = skipn j0 (firstn j received)
              ++ skipn (j0 - length (firstn j received)) (skipn j received))
    as E by (rewrite <- skipn_app, firstn_skipn; reflexivity).
  rewrite E in B.
  rewrite skipn_app.
  rewrite (body_ahead_front _ _ _ _ _ B).
  - simpl. apply IH. exact H.
  - rewrite length_skipn, length_firstn. lia.
Qed.

Lemma loop_body_found (received : list str) (char : str) (j k : nat) :
  char <> newline ->
  index received char j = Some k ->
  loop_body received char j
  = if k =? j then Next (j + 1)
    else if k - j <=? displacement_tolerance then Next (k + 1)
         else Raise (Exception char).
Proof.
  intros N I. unfold loop_body.
  apply str_eqb_neq in N. rewrite N, I.
  unfold index in I.
  destruct (find_first char (skipn j received)) as [fd|] eqn:F;
    [|discriminate].
  apply find_first_bound in F. rewrite length_skipn in F.
  replace (j <? length received) with true
    by (symmetry; apply Nat.ltb_lt; lia).
  reflexivity.
Qed.

Lemma index_hit (received : list str) (char : str) (j k : nat) :
  index received char j = Some k ->
  j <= k /\ skipn k received = char :: skipn (S k) received.
Proof.
  unfold index.
  destruct (find_first char (skipn j received)) as [fd|] eqn:F;
    [|discriminate].
  simpl; intro H; inversion H; subst.
  split; [lia|].
  apply skipn_cons_nth.
  apply find_first_hit in F. destruct F as [F _].
  rewrite nth_error_skipn in F. exact F.
Qed.

End AlignmentFacts.

(** ** What [get_remaining_chars_to_send] returns *)

Section Remaining.

Import Alignment Resync Echo.

Lemma get_cases (d : dict) (k default : str) :
  get d k default = default \/ In (get d k default) (map snd d).
Proof.
  induction d as [|[k' v] d IH]; simpl; [auto|].
  destruct (str_eqb k' k); [auto | tauto].
Qed.

(** Only a line break is normalized to a line break. *)
Lemma custom_decode_newline (char : str) :
  custom_decode char = newline -> char = newline.
Proof.
  unfold custom_decode. intro H.
  destruct (get_cases special_chars char char) as [E|I].
  - congruence.
  - rewrite H in I. exfalso. simpl in I.
    repeat (destruct I as [I|I]; [discriminate I|]). exact I.
Qed.

(** Where the loop can stop: at an index it has not passed, on a
    character that is not a line break. *)
Lemma for_loop_stop (to_send : list str) :
  forall (received : list str) (i j n : nat),
    for_loop received to_send i j = Ok (Some n) ->
    i <= n /\
    exists char, nth_error to_send (n - i) = Some char /\ char <> newline.
Proof.
  induction to_send as [|char rest IH]; intros received i j n H; simpl in H;
    [discriminate|].
  destruct (loop_body received char j) as [j'| |e] eqn:B.
  - apply IH in H. destruct H as (L & c & Hc & Nc).
    split; [lia|]. exists c. split; [|exact Nc].
    replace (n - i) with (S (n - S i)) by lia. exact Hc.
  - inversion H; subst. split; [lia|].
    rewrite Nat.sub_diag. exists char. split; [reflexivity|].
    intro E. subst. unfold loop_body in B.
    rewrite str_eqb_refl in B. discriminate.
  - discriminate.
Qed.

(** C1, as the code has it: for [sent = "Hello world "] and
    [confirmed = " Hello"] the loop stops on the space behind "Hello",
    which was not confirmed: the resume point is index 5 and the result is
    the characters of [" world "], that space included. *)
Theorem hello_resumes_at_the_space :
  continue_point (chars (lit "Hello world ")) (chars (lit " Hello"))
  = Ok (Some 5)
  /\ get_remaining_chars_to_send
       (chars (lit "Hello world ")) (chars (lit " Hello"))
     = Ok (chars (lit " world ")).
Proof. split; vm_compute; reflexivity. Qed.

(** C1 as stated (resume point 6, result the characters of ["world "])
    does not hold. *)
Lemma hello_does_not_resume_at_six :
  ~ (continue_point (chars (lit "Hello world ")) (chars (lit " Hello"))
     = Ok (Some 6)
     /\ get_remaining_chars_to_send
          (chars (lit "Hello world ")) (chars (lit " Hello"))
        = Ok (chars (lit "world "))).
Proof. intros [H _]. vm_compute in H. discriminate H. Qed.

(** C2, as the code has it: for [sent = "Hello world "] and
    [confirmed = " Hello world"] the last space of [sent] was not
    confirmed; the resume point is index 11 and the result is that one
    space. *)
Theorem hello_world_leaves_the_last_space :
  continue_point (chars (lit "Hello world ")) (chars (lit " Hello world"))
  = Ok (Some 11)
  /\ get_remaining_chars_to_send
       (chars (lit "Hello world ")) (chars (lit " Hello world"))
     = Ok [lit " "].
Proof. split; vm_compute; reflexivity. Qed.

(** C2 as stated (an empty result) does not hold. *)
Lemma hello_world_is_not_empty :
  get_remaining_chars_to_send
    (chars (lit "Hello world ")) (chars (lit " Hello world"))
  <> Ok [].
Proof. intro H. vm_compute in H. discriminate H. Qed.

Lemma custom_decode_twice (char : str) :
  custom_decode (custom_decode char) = custom_decode char.
Proof.
  pose proof (get_cases special_chars char char) as H.
  fold (custom_decode char) in H.
  set (v := custom_decode char) in *.
  destruct H as [E|I].
  - subst v. rewrite E. exact E.
  - simpl in I. repeat (destruct I as [<-|I]; [reflexivity|]). destruct I.
Qed.

Lemma is_newline_custom_decode (char : str) :
  is_newline (custom_decode char) = is_newline char.
Proof.
  unfold is_newline.
  destruct (str_eqb char newline) eqn:E.
  - apply str_eqb_eq in E. subst char. reflexivity.
  - apply str_eqb_neq. intro D. apply custom_decode_newline in D.
    apply str_eqb_neq in E. auto.
Qed.

Lemma repeat_app_cons {A : Type} (x : A) (n : nat) (l : list A) :
  repeat x n ++ x :: l = repeat x (S n) ++ l.
Proof.
  induction n as [|n IH]; simpl; [reflexivity|].
  rewrite IH. reflexivity.
Qed.

(** The loop over characters that the received ones repeat, line
    breaks included: [breaks] line breaks lie between the cursor and the
    next character.  It passes them all, or it raises. *)
Lemma for_loop_echo (to_send : list str) :
  forall (breaks : nat) (received : list str) (i j : nat),
    skipn j received = repeat newline breaks ++ to_send ->
    match for_loop received to_send i j with
    | Ok None => short_breaks breaks to_send = true
    | Ok (Some _) => False
    | Raised _ => short_breaks breaks to_send = false
    end.
Proof.
  induction to_send as [|char rest IH]; intros breaks received i j E;
    simpl; [reflexivity|].
  rewrite loop_body_ahead, E. unfold body_ahead, is_newline.
  destruct (str_eqb char newline) eqn:N.
  - apply str_eqb_eq in N. subst char. simpl.
    apply IH. rewrite Nat.add_0_r, E. apply repeat_app_cons.
  - assert (exists a ahead,
               repeat newline breaks ++ char :: rest = a :: ahead)
      as (a & ahead & A)
      by (destruct (repeat newline breaks); simpl; eauto).
    rewrite A. cbv iota. rewrite <- A. clear a ahead A.
    rewrite find_first_skip.
    + simpl. rewrite str_eqb_refl. simpl.
      rewrite repeat_length, Nat.add_0_r.
      assert (skipn (j + (breaks + 1)) received = repeat newline 0 ++ rest)
        as E'.
      { rewrite (Nat.add_comm j), <- skipn_skipn, E.
        rewrite skipn_app, repeat_length.
        rewrite skipn_all2 by (rewrite repeat_length; lia).
        replace (breaks + 1 - breaks) with 1 by lia. reflexivity. }
      destruct breaks as [|breaks]; simpl.
      * apply (IH 0). exact E'.
      * destruct (breaks <=? 1); simpl; [|reflexivity].
        apply (IH 0). exact E'.
    + intro H. apply repeat_spec in H. subst char.
      rewrite str_eqb_refl in N. discriminate N.
Qed.

(** Every character the loop passes is found at a received element of
    its own, behind the one before: so there are at least as many of
    those behind the cursor as characters to pass. *)
Lemma for_loop_matches (to_send : list str) :
  forall (received : list str) (i j : nat),
    Forall untouched to_send ->
    for_loop received to_send i j = Ok None ->
    length (voiced to_send)
    <= length (filter matchable (skipn j received)).
Proof.
  induction to_send as [|char rest IH]; intros received i j U H;
    simpl in *; [lia|].
  inversion U as [|? ? Uc Ur]; subst.
  destruct (loop_body received char j) as [j'| |e] eqn:B;
    try discriminate.
  apply loop_body_next in B. destruct B as (d & B & ->).
  specialize (IH _ _ _ Ur H).
  unfold body_ahead in B. unfold is_newline at 1.
  destruct (str_eqb char newline) eqn:N; simpl.
  - inversion B; subst. rewrite Nat.add_0_r in IH. exact IH.
  - destruct (skipn j received) as [|a ahead] eqn:A; [discriminate|].
    destruct (find_first char (a :: ahead)) as [fd|] eqn:F; [|discriminate].
    assert (d = S fd) as ->.
    { destruct (fd =? 0) eqn:Z; [apply Nat.eqb_eq in Z; subst;
                                 inversion B; reflexivity|].
      destruct (fd <=? displacement_tolerance); inversion B; lia. }
    apply find_first_hit in F. destruct F as [F _].
    apply skipn_cons_nth in F.
    rewrite <- (firstn_skipn fd (a :: ahead)), F, filter_app, length_app.
    assert (matchable char = true) as M.
    { unfold matchable, is_newline. rewrite N, Uc, str_eqb_refl.
      reflexivity. }
    simpl filter. rewrite M. simpl length.
    replace (j + S fd) with (S fd + j) in IH by lia.
    rewrite <- skipn_skipn, A in IH. simpl skipn in IH. lia.
Qed.

Lemma matchable_voiced (l : list str) :
  length (filter matchable l) <= length (voiced l)
  /\ (Exists (fun char => ~ untouched char) l ->
      length (filter matchable l) < length (voiced l)).
Proof.
  unfold voiced.
  induction l as [|c l [IH1 IH2]]; simpl.
  - split; [lia|]. intro H. inversion H.
  - destruct (matchable c) eqn:M; destruct (is_newline c) eqn:N;
      unfold matchable in M; rewrite N in M; simpl in *;
      try discriminate M.
    + apply str_eqb_eq in M.
      split; [lia|]. intro H. inversion H as [? ? Hc|? ? Hl]; subst.
      * exfalso. apply Hc. exact M.
      * apply IH2 in Hl. lia.
    + split; [exact IH1|]. intro H. inversion H as [? ? Hc|? ? Hl]; subst.
      * exfalso. apply Hc. unfold is_newline in N.
        apply str_eqb_eq in N. subst c. reflexivity.
      * apply IH2. exact Hl.
    + split; lia.
Qed.

Lemma voiced_custom_decode (l : list str) :
  length (voiced (map custom_decode l)) = length (voiced l).
Proof.
  unfold voiced. induction l as [|c l IH]; simpl; [reflexivity|].
  rewrite is_newline_custom_decode.
  destruct (is_newline c); simpl; rewrite IH; reflexivity.
Qed.

Lemma map_custom_decode_untouched (l : list str) :
  Forall untouched l -> map custom_decode l = l.
Proof.
  induction 1 as [|c l Uc _ IH]; simpl; [reflexivity|].
  rewrite Uc, IH. reflexivity.
Qed.

(** A character of the table in [sent] keeps the loop from passing all
    of [sent] when the confirmed characters repeat it. *)
Lemma table_character_is_not_confirmed (sent : list str) (i : nat) :
  Exists (fun char => ~ untouched char) sent ->
  for_loop sent (map custom_decode sent) i 0 <> Ok None.
Proof.
  intros X C. apply for_loop_matches in C.
  - rewrite voiced_custom_decode in C. simpl skipn in C.
    destruct (matchable_voiced sent) as [_ S]. specialize (S X). lia.
  - apply Forall_map. apply Forall_forall. intros c _.
    apply custom_decode_twice.
Qed.

(** C3, amended: when [confirmed] without its first element is equal
    to [sent], the result is empty exactly when no element of [sent] is a
    character of the normalization table and no element of [sent] other
    than a line break stands behind three or more line breaks in a
    row. *)
Theorem echoed_sent_leaves_nothing_exactly_when
        (sent confirmed : list str) :
  tl confirmed = sent ->
  (get_remaining_chars_to_send sent confirmed = Ok []
   <-> Forall untouched sent /\ short_breaks 0 sent = true).
Proof.
  intro E. unfold get_remaining_chars_to_send, continue_point. cbv zeta.
  rewrite E. split.
  - intro H.
    assert (for_loop sent (map custom_decode sent) 0 0 = Ok None) as C.
    { destruct (for_loop sent (map custom_decode sent) 0 0)
        as [[i|]|e] eqn:C; [|reflexivity|discriminate].
      exfalso. apply for_loop_stop in C. destruct C as (_ & c & Hc & _).
      assert (nth_error (map custom_decode sent) (i - 0) <> None) as B
        by congruence.
      apply nth_error_Some in B. rewrite length_map in B.
      inversion H as [K]. apply (f_equal (@length str)) in K.
      rewrite length_skipn in K. simpl in K. lia. }
    assert (Forall untouched sent) as U.
    { destruct (Forall_Exists_dec untouched
                  (fun c => list_eq_dec N.eq_dec (custom_decode c) c) sent)
        as [U|X]; [exact U|].
      exfalso. exact (table_character_is_not_confirmed sent 0 X C). }
    split; [exact U|].
    rewrite (map_custom_decode_untouched _ U) in C.
    pose proof (for_loop_echo sent 0 sent 0 0 eq_refl) as L.
    rewrite C in L. exact L.
  - intros [U S].
    rewrite (map_custom_decode_untouched _ U).
    pose proof (for_loop_echo sent 0 sent 0 0 eq_refl) as L.
    destruct (for_loop sent sent 0 0) as [[i|]|e];
      [destruct L | reflexivity | congruence].
Qed.

(** "Hi", a line break, "you", two line breaks, "all" and three line
    breaks at the end, confirmed as they were sent. *)
Lemma echoed_sent_leaves_nothing_exactly_when_witness :
  get_remaining_chars_to_send
    (chars (lit "Hi") ++ [newline] ++ chars (lit "you")
       ++ [newline; newline] ++ chars (lit "all")
       ++ [newline; newline; newline])
    (lit " " :: chars (lit "Hi") ++ [newline] ++ chars (lit "you")
       ++ [newline; newline] ++ chars (lit "all")
       ++ [newline; newline; newline])
  = Ok [].
Proof.
  apply (proj2 (echoed_sent_leaves_nothing_exactly_when
                  (chars (lit "Hi") ++ [newline] ++ chars (lit "you")
                     ++ [newline; newline] ++ chars (lit "all")
                     ++ [newline; newline; newline])
                  (lit " " :: chars (lit "Hi") ++ [newline]
                     ++ chars (lit "you") ++ [newline; newline]
                     ++ chars (lit "all") ++ [newline; newline; newline])
                  eq_refl)).
  split.
  - repeat constructor.
  - reflexivity.
Defined.

(** C3 as stated fails for a character of the table (the right single
    quote is looked for as an apostrophe, and sent again) and for line
    breaks (three of them move the next character out of the tolerance,
    and the call raises). *)
Lemma all_confirmed_is_not_always_empty :
  ~ (tl [lit " "; [0x2019%N]] = [[0x2019%N]] ->
     get_remaining_chars_to_send [[0x2019%N]] [lit " "; [0x2019%N]] = Ok [])
  /\ ~ (tl (chars (lit " a") ++ [newline; newline; newline; lit "b"])
        = chars (lit "a") ++ [newline; newline; newline; lit "b"] ->
        get_remaining_chars_to_send
          (chars (lit "a") ++ [newline; newline; newline; lit "b"])
          (chars (lit " a") ++ [newline; newline; newline; lit "b"])
        = Ok []).
Proof.
  split; intro H; specialize (H eq_refl); vm_compute in H; discriminate H.
Qed.

(** C4: when the call returns, the result is empty or it is [sent] from
    the resume point on, [sent] as it was passed and not as normalized;
    either way it is a suffix of [sent]. *)
Theorem remaining_is_suffix_of_sent (sent confirmed result : list str) :
  get_remaining_chars_to_send sent confirmed = Ok result ->
  (result = [] \/
   exists i, continue_point sent confirmed = Ok (Some i)
             /\ i < length sent /\ result = skipn i sent)
  /\ exists front, sent = front ++ result.
Proof.
  unfold get_remaining_chars_to_send.
  destruct (continue_point sent confirmed) as [[i|]|e] eqn:C; intro H;
    inversion H; subst; clear H.
  - split.
    + right. exists i. split; [reflexivity|]. split; [|reflexivity].
      unfold continue_point in C. apply for_loop_stop in C.
      destruct C as (_ & c & Hc & _).
      rewrite Nat.sub_0_r in Hc.
      assert (nth_error (map custom_decode sent) i <> None) as B
        by congruence.
      apply nth_error_Some in B. rewrite length_map in B. exact B.
    + exists (firstn i sent). symmetry. apply firstn_skipn.
  - split; [left; reflexivity|].
    exists sent. symmetry. apply app_nil_r.
Qed.

Lemma remaining_is_suffix_of_sent_witness :
  (chars (lit " world ") = [] \/
   exists i, continue_point (chars (lit "Hello world ")) (chars (lit " Hello"))
             = Ok (Some i)
             /\ i < length (chars (lit "Hello world "))
             /\ chars (lit " world ") = skipn i (chars (lit "Hello world ")))
  /\ exists front, chars (lit "Hello world ") = front ++ chars (lit " world ").
Proof.
  apply (remaining_is_suffix_of_sent
           (chars (lit "Hello world ")) (chars (lit " Hello"))).
  vm_compute. reflexivity.
Defined.

(** C6: a turn of the loop on a line break hands the cursor [j] on as it
    was, the loop goes to the next index with that cursor, and the resume
    point is never an index of [sent] that holds a line break. *)
Theorem newline_keeps_the_cursor :
  (forall (received : list str) (j : nat),
      loop_body received (custom_decode newline) j = Next j)
  /\ (forall (received rest : list str) (i j : nat),
         for_loop received (custom_decode newline :: rest) i j
         = for_loop received rest (S i) j)
  /\ (forall (sent confirmed : list str) (i : nat),
         continue_point sent confirmed = Ok (Some i) ->
         exists char, nth_error sent i = Some char /\ char <> newline).
Proof.
  split; [|split].
  - intros. reflexivity.
  - intros. reflexivity.
  - intros sent confirmed i C. unfold continue_point in C.
    apply for_loop_stop in C. destruct C as (_ & c & Hc & Nc).
    rewrite Nat.sub_0_r, nth_error_map in Hc.
    destruct (nth_error sent i) as [char|]; [|discriminate].
    exists char. split; [reflexivity|].
    intro E. subst. apply Nc. inversion Hc. reflexivity.
Qed.

Lemma newline_keeps_the_cursor_witness :
  exists char,
    nth_error (chars (lit "Hi") ++ [newline] ++ chars (lit "you")) 3
    = Some char
    /\ char <> newline.
Proof.
  apply (proj2 (proj2 newline_keeps_the_cursor)
           (chars (lit "Hi") ++ [newline] ++ chars (lit "you"))
           (chars (lit " Hi"))).
  vm_compute. reflexivity.
Defined.

End Remaining.

(** ** Displaced characters *)

Section Displacement.

Import Alignment.

(** The loop over [before ++ char :: after], once it has passed [before]
    and stands at [char] with the cursor [j]. *)
Lemma continue_point_at (before after chars_received : list str)
      (char : str) (j : nat) :
  cursor_after (tl chars_received) (map custom_decode before) 0 = Some j ->
  continue_point (before ++ char :: after) chars_received
  = match loop_body (tl chars_received) (custom_decode char) j with
    | Next j' =>
        for_loop (tl chars_received) (map custom_decode after)
                 (S (length before)) j'
    | Break => Ok (Some (length before))
    | Raise e => Raised e
    end.
Proof.
  intro C. unfold continue_point. cbv zeta.
  rewrite map_app, (for_loop_app _ _ _ 0 0 j C), length_map, Nat.add_0_r.
  reflexivity.
Qed.

Lemma tl_exact_position (chars_received : list str) (j k : nat) :
  chars_received <> [] ->
  tl (exact_position chars_received j k)
  = firstn j (tl chars_received) ++ skipn k (tl chars_received).
Proof.
  destruct chars_received as [|a received]; [congruence|]. reflexivity.
Qed.

(** C5, amended: the loop stands at a character of [sent] that is not
    a line break, with the cursor [j], and the character is next found in
    the confirmed characters at [k].  When [k] is one or two places behind
    [j] the turn accepts it and goes on behind [k], and the resume point
    (and the result) is the one obtained for [confirmed] with the one or
    two elements between [j] and [k] left out, where the character stands
    exactly at the cursor.  When [k] is three or more places behind [j]
    the call raises. *)
Theorem displacement_tolerated_up_to_two
        (before after chars_received : list str) (char : str) (j k : nat) :
  cursor_after (tl chars_received) (map custom_decode before) 0 = Some j ->
  custom_decode char <> newline ->
  index (tl chars_received) (custom_decode char) j = Some k ->
  (j < k <= j + displacement_tolerance ->
   loop_body (tl chars_received) (custom_decode char) j = Next (k + 1)
   /\ index (tl (exact_position chars_received j k)) (custom_decode char) j
      = Some j
   /\ continue_point (before ++ char :: after) chars_received
      = continue_point (before ++ char :: after)
                       (exact_position chars_received j k)
   /\ get_remaining_chars_to_send (before ++ char :: after) chars_received
      = get_remaining_chars_to_send (before ++ char :: after)
                                    (exact_position chars_received j k))
  /\ (j + displacement_tolerance < k ->
      get_remaining_chars_to_send (before ++ char :: after) chars_received
      = Raised (Exception (custom_decode char))).
Proof.
  intros C N I.
  pose proof (loop_body_found _ _ _ _ N I) as B.
  split.
  - intros [L U].
    replace (k =? j) with false in B by (symmetry; apply Nat.eqb_neq; lia).
    replace (k - j <=? displacement_tolerance) with true in B
      by (symmetry; apply Nat.leb_le; lia).
    assert (chars_received <> []) as NE.
    { intro E; subst. unfold index in I. rewrite skipn_nil in I.
      discriminate. }
    destruct (index_hit _ _ _ _ I) as [_ Hk].
    assert (j < length (tl chars_received)) as Lj.
    { apply (f_equal (@length str)) in Hk. rewrite length_skipn in Hk.
      simpl in Hk. lia. }
    assert (skipn j (tl (exact_position chars_received j k))
            = skipn k (tl chars_received)) as Ej.
    { rewrite (tl_exact_position _ _ _ NE), skipn_app, length_firstn.
      replace (Nat.min j (length (tl chars_received))) with j by lia.
      rewrite Nat.sub_diag.
      rewrite skipn_all2 by (rewrite length_firstn; lia). reflexivity. }
    assert (index (tl (exact_position chars_received j k))
                  (custom_decode char) j = Some j) as I'.
    { unfold index. rewrite Ej, Hk. simpl. rewrite str_eqb_refl. simpl.
      f_equal. lia. }
    assert (continue_point (before ++ char :: after) chars_received
            = continue_point (before ++ char :: after)
                             (exact_position chars_received j k)) as E.
    { rewrite (continue_point_at _ _ _ _ _ C), B.
      assert (cursor_after (tl (exact_position chars_received j k))
                           (map custom_decode before) 0 = Some j) as C'.
      { rewrite (tl_exact_position _ _ _ NE).
        apply cursor_after_front. exact C. }
      rewrite (continue_point_at _ _ _ _ _ C').
      rewrite (loop_body_found _ _ _ _ N I'), Nat.eqb_refl.
      apply for_loop_ahead.
      rewrite (Nat.add_comm j 1), <- (skipn_skipn 1 j), Ej, Hk.
      rewrite Nat.add_comm. reflexivity. }
    repeat split; [exact B | exact I' | exact E |].
    unfold get_remaining_chars_to_send. rewrite E. reflexivity.
  - intro L.
    replace (k =? j) with false in B by (symmetry; apply Nat.eqb_neq; lia).
    replace (k - j <=? displacement_tolerance) with false in B
      by (symmetry; apply Nat.leb_gt; lia).
    unfold get_remaining_chars_to_send.
    rewrite (continue_point_at _ _ _ _ _ C), B. reflexivity.
Qed.

(** "Hi, you" against " Hi?!, you": the comma is found two places
    behind the cursor, and the result is that of " Hi, you".  Against
    " Hi?!;, you" it is found three places behind, and the call raises. *)
Lemma displacement_tolerated_up_to_two_witness :
  get_remaining_chars_to_send
    (chars (lit "Hi") ++ lit "," :: chars (lit " you"))
    (chars (lit " Hi?!, you"))
  = get_remaining_chars_to_send
      (chars (lit "Hi") ++ lit "," :: chars (lit " you"))
      (exact_position (chars (lit " Hi?!, you")) 2 4)
  /\ get_remaining_chars_to_send
       (chars (lit "Hi") ++ lit "," :: chars (lit " you"))
       (chars (lit " Hi?!;, you"))
     = Raised (Exception (custom_decode (lit ","))).
Proof.
  split.
  - refine (proj2 (proj2 (proj2 (proj1
      (displacement_tolerated_up_to_two
         (chars (lit "Hi")) (chars (lit " you")) (chars (lit " Hi?!, you"))
         (lit ",") 2 4 _ _ _) _)))).
    + vm_compute. reflexivity.
    + discriminate.
    + vm_compute. reflexivity.
    + unfold displacement_tolerance. lia.
  - refine (proj2
      (displacement_tolerated_up_to_two
         (chars (lit "Hi")) (chars (lit " you")) (chars (lit " Hi?!;, you"))
         (lit ",") 2 5 _ _ _) _).
    + vm_compute. reflexivity.
    + discriminate.
    + vm_compute. reflexivity.
    + unfold displacement_tolerance. lia.
Defined.

(** C5 as stated does not hold.  In "abcd" against " bacd" the "a" is
    found one place behind the cursor and accepted, but the resume point
    is not the one of " abcd", where it stands at the cursor: the "b" that
    was passed over is sent again.  And a line break of [sent] that is
    next found three places behind the cursor raises nothing: the loop
    does not look for line breaks. *)
Lemma displaced_character_is_not_always_absorbed :
  (index (tl (chars (lit " bacd"))) (custom_decode (lit "a")) 0 = Some 1
   /\ index (tl (chars (lit " abcd"))) (custom_decode (lit "a")) 0 = Some 0
   /\ continue_point (chars (lit "abcd")) (chars (lit " bacd"))
      <> continue_point (chars (lit "abcd")) (chars (lit " abcd")))
  /\ (cursor_after (tl (chars (lit " axxx") ++ [newline]))
                   (map custom_decode [lit "a"]) 0 = Some 1
      /\ index (tl (chars (lit " axxx") ++ [newline]))
               (custom_decode newline) 1 = Some (1 + 3)
      /\ forall e : exn,
           get_remaining_chars_to_send
             [lit "a"; newline] (chars (lit " axxx") ++ [newline])
           <> Raised e).
Proof.
  split; [split; [|split]|split; [|split]]; try (vm_compute; reflexivity).
  - intro H. vm_compute in H. discriminate H.
  - intros e H. vm_compute in H. discriminate H.
Qed.

(** C10: the pound sign, the euro sign and the ellipsis are normalized to
    strings of three characters, which are looked for as one element and
    so are equal to no element of one character.  When the loop stands at
    such a character with the cursor [j] in bounds and the element does not
    occur in the confirmed characters from [j] on, the loop stops there:
    the result is the original [sent] from that character on. *)
Theorem three_character_elements_stop_the_loop
        (before after chars_received : list str) (char : str) (j : nat) :
  In char [pound; euro; ellipsis] ->
  cursor_after (tl chars_received) (map custom_decode before) 0 = Some j ->
  j < length (tl chars_received) ->
  ~ In (custom_decode char) (skipn j (tl chars_received)) ->
  In (custom_decode char) [lit "GBP"; lit "EUR"; lit "..."]
  /\ (forall c : str, length c = 1 -> custom_decode char <> c)
  /\ continue_point (before ++ char :: after) chars_received
     = Ok (Some (length before))
  /\ get_remaining_chars_to_send (before ++ char :: after) chars_received
     = Ok (char :: after).
Proof.
  intros S C L A.
  assert (In (custom_decode char) [lit "GBP"; lit "EUR"; lit "..."]) as D.
  { simpl in S. destruct S as [<-|[<-|[<-|[]]]]; vm_compute; auto. }
  assert (length (custom_decode char) = 3) as L3.
  { simpl in D. destruct D as [<-|[<-|[<-|[]]]]; reflexivity. }
  assert (continue_point (before ++ char :: after) chars_received
          = Ok (Some (length before))) as E.
  { rewrite (continue_point_at _ _ _ _ _ C). unfold loop_body.
    replace (str_eqb (custom_decode char) newline) with false
      by (symmetry; apply str_eqb_neq; intro E; rewrite E in L3;
          discriminate L3).
    apply Nat.ltb_lt in L. rewrite L. unfold index.
    apply find_first_none in A. rewrite A. reflexivity. }
  repeat split; [exact D | | exact E |].
  - intros c Lc E'. rewrite E' in L3. lia.
  - unfold get_remaining_chars_to_send. rewrite E.
    rewrite skipn_app, Nat.sub_diag, skipn_all. reflexivity.
Qed.

(** "5 £ now" when " 5 " was confirmed: the pound sign and what follows
    it is sent again. *)
Lemma three_character_elements_stop_the_loop_witness :
  In (custom_decode pound) [lit "GBP"; lit "EUR"; lit "..."]
  /\ (forall c : str, length c = 1 -> custom_decode pound <> c)
  /\ continue_point (chars (lit "5 ") ++ pound :: chars (lit " now"))
                    (chars (lit " 5 GBP"))
     = Ok (Some (length (chars (lit "5 "))))
  /\ get_remaining_chars_to_send
       (chars (lit "5 ") ++ pound :: chars (lit " now"))
       (chars (lit " 5 GBP"))
     = Ok (pound :: chars (lit " now")).
Proof.
  apply (three_character_elements_stop_the_loop
           (chars (lit "5 ")) (chars (lit " now")) (chars (lit " 5 GBP"))
           pound 2).
  - simpl. auto.
  - vm_compute. reflexivity.
  - simpl. lia.
  - vm_compute. intros [H|[H|[H|[]]]]; discriminate H.
Defined.

End Displacement.

(** ** The word chunker *)

Section ChunkerFacts.

Import Chunker.

(** What the characters of a text, the flush and the end marker add to
    the output queue. *)
Lemma for_chars_units (text : str) :
  forall st : state,
    output_queue (put_in_queue None (flush (for_chars text st)))
    = output_queue st ++ map Some (units_of (buffer st) text) ++ [None].
Proof.
  induction text as [|c text IH]; intros [b q].
  - unfold for_chars, flush; simpl. destruct b as [|x b]; simpl;
      [reflexivity|].
    rewrite <- app_assoc. reflexivity.
  - change (for_chars (c :: text) (mkState b q))
      with (for_chars text (on_char (mkState b q) c)).
    rewrite IH. unfold on_char.
    destruct (N.eqb c space) eqn:E; simpl; rewrite E; [|reflexivity].
    unfold flush; simpl. destruct b as [|x b]; simpl; [reflexivity|].
    rewrite <- app_assoc. reflexivity.
Qed.

(** The loop reads the fragments as one text, up to the end marker. *)
Lemma while_loop_stream (fragments : list str) (later : list item) :
  forall st : state,
    while_loop (map Some fragments ++ None :: later) st
    = (put_in_queue None (flush (for_chars (join fragments) st)), true).
Proof.
  induction fragments as [|f fragments IH]; intro st; simpl; [reflexivity|].
  rewrite IH. unfold for_chars, join. simpl.
  rewrite fold_left_app. reflexivity.
Qed.

Lemma text_chunker_units (fragments : list str) (later : list item) :
  text_chunker (map Some fragments ++ None :: later)
  = map Some (units_of [] (join fragments)) ++ [None].
Proof.
  unfold text_chunker. rewrite while_loop_stream. simpl fst.
  rewrite for_chars_units. reflexivity.
Qed.

Lemma texts_units (units : list str) :
  texts (map Some units ++ [None]) = units.
Proof.
  induction units as [|u units IH]; simpl; [reflexivity|].
  rewrite IH; reflexivity.
Qed.

Lemma units_of_text_unit (text : str) :
  forall word : str,
    ~ In space word -> Forall text_unit (units_of word text).
Proof.
  assert (forall w : str, w <> [] -> ~ In space w ->
                          text_unit (w ++ [space])) as U
    by (intros w N S; exists w; auto).
  induction text as [|c text IH]; intros word S; simpl.
  - destruct word as [|x word]; constructor; [|constructor].
    apply U; [discriminate | exact S].
  - destruct (N.eqb c space) eqn:E.
    + destruct word as [|x word]; [apply IH; simpl; tauto|].
      constructor; [apply U; [discriminate | exact S]|].
      apply IH; simpl; tauto.
    + apply IH. apply N.eqb_neq in E.
      rewrite in_app_iff. simpl. intros [H|[H|[]]]; [auto | congruence].
Qed.

Lemma units_of_nonempty (text : str) :
  forall word : str, word <> [] -> units_of word text <> [].
Proof.
  induction text as [|c text IH]; intros word N; simpl.
  - destruct word; [congruence | discriminate].
  - destruct (N.eqb c space).
    + destruct word; [congruence | discriminate].
    + apply IH. destruct word; discriminate.
Qed.

Lemma strip_space_unit (word : str) : strip_space (word ++ [space]) = word.
Proof.
  unfold strip_space. rewrite rev_app_distr. simpl. apply rev_involutive.
Qed.

Lemma reassemble_cons (u : str) (us : list str) :
  us <> [] -> reassemble (u :: us) = u ++ reassemble us.
Proof. destruct us; [congruence | reflexivity]. Qed.

(** On a text with single spaces the units give back the word in the
    buffer and the text. *)
Lemma reassemble_units_of (text : str) :
  forall word : str,
    spaced (match word with [] => true | _ => false end) text = true ->
    reassemble (units_of word text) = word ++ text.
Proof.
  induction text as [|c text IH]; intros word S; simpl in *.
  - destruct word as [|x word]; [discriminate|].
    change (reassemble [(x :: word) ++ [space]])
      with (strip_space ((x :: word) ++ [space])).
    rewrite strip_space_unit, app_nil_r. reflexivity.
  - destruct (N.eqb c space) eqn:E.
    + apply N.eqb_eq in E; subst c.
      destruct word as [|x word]; [discriminate|]. simpl in S.
      rewrite reassemble_cons.
      * rewrite (IH [] S), <- app_assoc. reflexivity.
      * destruct text as [|c' text']; [discriminate|]. simpl in *.
        destruct (N.eqb c' space); [discriminate|].
        apply units_of_nonempty. discriminate.
    + rewrite IH.
      * rewrite <- app_assoc. reflexivity.
      * destruct word; exact S.
Qed.

(** C7, amended: when the fragments put together have no space in
    front, none at the end and no two spaces in a row, the units put on
    the output queue, joined, the last one without its space, are the
    fragments put together. *)
Theorem units_reassemble_single_spaced_text (fragments : list str) :
  single_spaced (join fragments) = true ->
  reassemble (texts (text_chunker (stream fragments))) = join fragments.
Proof.
  intro S. unfold stream.
  rewrite text_chunker_units, texts_units.
  destruct (join fragments) as [|c text] eqn:J; [reflexivity|].
  apply (reassemble_units_of (c :: text) []). exact S.
Qed.

Lemma units_reassemble_single_spaced_text_witness :
  reassemble
    (texts (text_chunker (stream [lit "Hel"; lit "lo wor"; lit "ld, you"])))
  = join [lit "Hel"; lit "lo wor"; lit "ld, you"].
Proof.
  apply units_reassemble_single_spaced_text. vm_compute. reflexivity.
Defined.

(** C7 as stated fails on two spaces in a row, on a space at the end and
    on a space in front: the chunker does not emit them. *)
Lemma units_do_not_reassemble_every_text :
  reassemble (texts (text_chunker (stream [lit "a  b"]))) <> join [lit "a  b"]
  /\ reassemble (texts (text_chunker (stream [lit "a b "])))
     <> join [lit "a b "]
  /\ reassemble (texts (text_chunker (stream [lit " a"]))) <> join [lit " a"].
Proof.
  repeat split; intro H; vm_compute in H; discriminate H.
Qed.

(** C9: on fragments closed by the end marker the chunker returns, and
    what it has put on the output queue is text units, each a word that is
    not empty and has no space in it followed by one space, and then the
    end marker as the last item. *)
Theorem text_chunker_emits_units_then_end
        (fragments : list str) (later : list item) :
  terminates (map Some fragments ++ None :: later) = true
  /\ exists units : list str,
       text_chunker (map Some fragments ++ None :: later)
       = map Some units ++ [None]
       /\ Forall text_unit units.
Proof.
  split.
  - unfold terminates. rewrite while_loop_stream. reflexivity.
  - exists (units_of [] (join fragments)).
    split; [apply text_chunker_units|].
    apply units_of_text_unit. simpl. tauto.
Qed.

End ChunkerFacts.

(** ** The playback process *)

Section MPVFacts.

Import MPV.

(** C8: when the singleton holds a process that is running,
    [start_process] leaves the handle as it is and launches nothing; it
    returns normally when mpv is installed. *)
Theorem start_process_keeps_running_process
        (w : world) (self : MPVProcessSingleton) (p : handle) :
  process self = Some p ->
  poll w p = None ->
  process (snd (start_process w self)) = Some p
  /\ snd (start_process w self) = self
  /\ launched (snd (fst (start_process w self))) = launched w
  /\ (is_installed w (lit "mpv") = true ->
      fst (fst (start_process w self)) = Ok tt).
Proof.
  intros P R. unfold start_process.
  destruct (is_installed w (lit "mpv")); simpl.
  - rewrite P, R. simpl. auto.
  - repeat split; [exact P | discriminate].
Qed.

(** A second start right behind a first one that launched a process
    which is still running. *)
Lemma start_process_keeps_running_process_witness :
  let w := mkWorld (fun _ => Some (lit "/usr/bin/mpv")) (fun _ => None) [] in
  let '(_, w1, self1) := start_process w (mkSingleton None) in
  process (snd (start_process w1 self1)) = Some 0
  /\ snd (start_process w1 self1) = self1
  /\ launched (snd (fst (start_process w1 self1))) = launched w1
  /\ (is_installed w1 (lit "mpv") = true ->
      fst (fst (start_process w1 self1)) = Ok tt).
Proof.
  apply (start_process_keeps_running_process
           (mkWorld (fun _ => Some (lit "/usr/bin/mpv")) (fun _ => None) [0])
           (mkSingleton (Some 0)) 0); reflexivity.
Defined.

End MPVFacts.

(** ** More on the alignment *)

Section ResyncFacts.

Import Alignment Resync.

Lemma get_missing (d : dict) (k default : str) :
  ~ In k (map fst d) -> get d k default = default.
Proof.
  induction d as [|[k' v] d IH]; simpl; intro H; [reflexivity|].
  destruct (str_eqb k' k) eqn:E.
  - apply str_eqb_eq in E. exfalso; auto.
  - apply IH. tauto.
Qed.

(** X1: [custom_decode] changes only the twelve characters of its
    table, it leaves every ASCII character as it is, and a second pass
    changes nothing more. *)
Theorem custom_decode_only_table_characters :
  (forall char : str,
      ~ In char (map fst special_chars) -> custom_decode char = char)
  /\ (forall n : N, (n < 128)%N -> custom_decode [n] = [n])
  /\ (forall char : str,
         custom_decode (custom_decode char) = custom_decode char).
Proof.
  split; [|split].
  - intros char H. apply get_missing. exact H.
  - intros n L. apply get_missing. simpl.
    intro H.
    repeat (destruct H as [H|H]; [inversion H; subst n; discriminate L|]).
    exact H.
  - intro char.
    pose proof (get_cases special_chars char char) as H.
    fold (custom_decode char) in H.
    set (v := custom_decode char) in *.
    destruct H as [E|I].
    + subst v. rewrite E. exact E.
    + simpl in I.
      repeat (destruct I as [<-|I]; [reflexivity|]). destruct I.
Qed.

Lemma custom_decode_only_table_characters_witness :
  custom_decode (lit "a") = lit "a".
Proof.
  apply (proj1 (proj2 custom_decode_only_table_characters) 97%N).
  reflexivity.
Defined.

(** The cursor stays within the received characters. *)
Lemma loop_body_bound (received : list str) (char : str) (j j' : nat) :
  loop_body received char j = Next j' ->
  j <= length received -> j <= j' <= length received.
Proof.
  intros B L. apply loop_body_next in B. destruct B as (d & B & ->).
  apply body_ahead_bound in B. rewrite length_skipn in B. lia.
Qed.

(** A run over characters that all stand in the received ones, in
    order and with nothing between them, ends behind the last. *)
Lemma cursor_after_voiced (to_send : list str) :
  forall (received : list str) (j : nat),
    skipn j received = voiced to_send ->
    cursor_after received to_send j = Some (Nat.max j (length received)).
Proof.
  induction to_send as [|char rest IH]; intros received j E; simpl in *.
  - f_equal. destruct (Nat.le_gt_cases (length received) j) as [L|L];
      [lia|].
    apply (f_equal (@length str)) in E. rewrite length_skipn in E.
    simpl in E. lia.
  - rewrite loop_body_ahead. unfold body_ahead.
    unfold is_newline in E.
    destruct (str_eqb char newline) eqn:N; simpl in *.
    + rewrite Nat.add_0_r. apply IH. exact E.
    + rewrite E. simpl. rewrite str_eqb_refl. simpl.
      rewrite (IH received (j + 1)).
      * f_equal. apply (f_equal (@length str)) in E.
        rewrite length_skipn in E. simpl in E. lia.
      * rewrite (Nat.add_comm j 1), <- skipn_skipn, E. reflexivity.
Qed.

Lemma for_loop_voiced (to_send : list str) :
  forall (received : list str) (i j : nat),
    skipn j received = voiced to_send ->
    for_loop received to_send i j = Ok None.
Proof.
  induction to_send as [|char rest IH]; intros received i j E; simpl in *;
    [reflexivity|].
  rewrite loop_body_ahead. unfold body_ahead.
  unfold is_newline in E.
  destruct (str_eqb char newline) eqn:N; simpl in *.
  - apply IH. rewrite Nat.add_0_r. exact E.
  - rewrite E. simpl. rewrite str_eqb_refl. simpl.
    apply IH. rewrite (Nat.add_comm j 1), <- skipn_skipn, E. reflexivity.
Qed.

(** X2: when the confirmed characters, the artifact apart, are the
    normalized characters of [sent] without its line breaks, nothing is
    left to send. *)
Theorem normalized_match_leaves_nothing (sent confirmed : list str) :
  tl confirmed = voiced (map custom_decode sent) ->
  get_remaining_chars_to_send sent confirmed = Ok [].
Proof.
  intro E. unfold get_remaining_chars_to_send, continue_point. cbv zeta.
  rewrite for_loop_voiced; [reflexivity | exact E].
Qed.

(** "It's" with a typographic quote, a line break and "ok", confirmed
    with a plain apostrophe and without the line break. *)
Lemma normalized_match_leaves_nothing_witness :
  get_remaining_chars_to_send
    (chars (lit "It") ++ [[0x2019%N]; lit "s"; newline] ++ chars (lit "ok"))
    (chars (lit " It'sok"))
  = Ok [].
Proof.
  apply normalized_match_leaves_nothing. vm_compute. reflexivity.
Defined.

(** X3: when only a front part of [sent] was confirmed (normalized, line
    breaks apart), the next character that is not a line break is the
    resume point, and the result is [sent] from there on. *)
Theorem confirmed_front_part_resumes_behind_it
        (front rest confirmed : list str) (char : str) :
  tl confirmed = voiced (map custom_decode front) ->
  char <> newline ->
  continue_point (front ++ char :: rest) confirmed
  = Ok (Some (length front))
  /\ get_remaining_chars_to_send (front ++ char :: rest) confirmed
     = Ok (char :: rest).
Proof.
  intros E N.
  assert (continue_point (front ++ char :: rest) confirmed
          = Ok (Some (length front))) as C.
  { rewrite (continue_point_at front rest confirmed char
               (length (tl confirmed))).
    - unfold loop_body.
      replace (str_eqb (custom_decode char) newline) with false.
      + rewrite Nat.ltb_irrefl. reflexivity.
      + symmetry. apply str_eqb_neq. intro D.
        apply custom_decode_newline in D. auto.
    - rewrite (cursor_after_voiced _ _ 0 E). reflexivity. }
  split; [exact C|].
  unfold get_remaining_chars_to_send. rewrite C.
  rewrite skipn_app, Nat.sub_diag, skipn_all. reflexivity.
Qed.

Lemma confirmed_front_part_resumes_behind_it_witness :
  continue_point (chars (lit "Hello") ++ lit " " :: chars (lit "world "))
                 (chars (lit " Hello"))
  = Ok (Some (length (chars (lit "Hello"))))
  /\ get_remaining_chars_to_send
       (chars (lit "Hello") ++ lit " " :: chars (lit "world "))
       (chars (lit " Hello"))
     = Ok (lit " " :: chars (lit "world ")).
Proof.
  apply confirmed_front_part_resumes_behind_it.
  - reflexivity.
  - discriminate.
Defined.

Lemma for_loop_nothing_received (to_send : list str) :
  forall i : nat,
    match for_loop [] (map custom_decode to_send) i 0 with
    | Ok None => drop_newlines to_send = []
    | Ok (Some n) => i <= n /\ skipn (n - i) to_send = drop_newlines to_send
    | Raised _ => False
    end.
Proof.
  induction to_send as [|char rest IH]; intro i; simpl; [reflexivity|].
  unfold loop_body, is_newline.
  destruct (str_eqb (custom_decode char) newline) eqn:D.
  - apply str_eqb_eq, custom_decode_newline in D. subst char.
    simpl. specialize (IH (S i)).
    destruct (for_loop [] (map custom_decode rest) (S i) 0) as [[n|]|e];
      [|exact IH|exact IH].
    destruct IH as [L E]. split; [lia|].
    replace (n - i) with (S (n - S i)) by lia. exact E.
  - simpl. replace (str_eqb char newline) with false.
    + split; [lia|]. rewrite Nat.sub_diag. reflexivity.
    + symmetry. apply str_eqb_neq. intro E. subst char.
      vm_compute in D. discriminate D.
Qed.

(** X4: when nothing was confirmed ([confirmed] is empty or holds the
    artifact only), the call does not raise and returns [sent] without
    the line breaks at its front. *)
Theorem nothing_confirmed_sends_all_again (sent confirmed : list str) :
  length confirmed <= 1 ->
  get_remaining_chars_to_send sent confirmed = Ok (drop_newlines sent).
Proof.
  intro L.
  assert (tl confirmed = []) as E.
  { destruct confirmed as [|a [|b l]]; simpl in *; [reflexivity..|lia]. }
  unfold get_remaining_chars_to_send, continue_point. cbv zeta. rewrite E.
  pose proof (for_loop_nothing_received sent 0) as H.
  destruct (for_loop [] (map custom_decode sent) 0 0) as [[n|]|e].
  - destruct H as [_ H]. rewrite Nat.sub_0_r in H. rewrite H. reflexivity.
  - rewrite H. reflexivity.
  - destruct H.
Qed.

Lemma nothing_confirmed_sends_all_again_witness :
  get_remaining_chars_to_send (newline :: chars (lit "Hi you")) [lit " "]
  = Ok (drop_newlines (newline :: chars (lit "Hi you"))).
Proof.
  apply nothing_confirmed_sends_all_again. simpl. lia.
Defined.

End ResyncFacts.

(** ** When the alignment raises, and what more confirmations change *)

Section ResyncOutcomes.

Import Alignment Resync.

Lemma loop_body_raise (received : list str) (char : str) (j : nat) (e : exn) :
  loop_body received char j = Raise e ->
  e = Exception char
  /\ exists k, index received char j = Some k
               /\ j + displacement_tolerance < k.
Proof.
  unfold loop_body.
  destruct (str_eqb char newline); [discriminate|].
  destruct (j <? length received); [|discriminate].
  destruct (index received char j) as [k|] eqn:I; [|discriminate].
  destruct (index_hit _ _ _ _ I) as [L _].
  destruct (k =? j); [discriminate|].
  destruct (k - j <=? displacement_tolerance) eqn:T; [discriminate|].
  intro H; inversion H. split; [reflexivity|].
  exists k. split; [reflexivity|]. apply Nat.leb_gt in T. lia.
Qed.

Lemma for_loop_raised (to_send : list str) :
  forall (received : list str) (i j : nat) (e : exn),
    for_loop received to_send i j = Raised e ->
    exists char j' k,
      In char to_send /\ e = Exception char
      /\ index received char j' = Some k
      /\ j' + displacement_tolerance < k.
Proof.
  induction to_send as [|char rest IH]; intros received i j e H;
    simpl in H; [discriminate|].
  destruct (loop_body received char j) as [j1| |e1] eqn:B.
  - destruct (IH _ _ _ _ H) as (c & j' & k & I & R).
    exists c, j', k. split; [right; exact I | exact R].
  - discriminate.
  - inversion H; subst e1.
    destruct (loop_body_raise _ _ _ _ B) as (E & k & I & T).
    exists char, j, k. split; [left; reflexivity|]. auto.
Qed.

(** X5: the call raises only the exception of the loop, for a character
    of [sent] whose normalized form stands in the confirmed characters
    three or more places behind the artifact; with three or fewer
    characters confirmed it cannot raise. *)
Theorem raises_only_beyond_tolerance
        (sent confirmed : list str) (e : exn) :
  get_remaining_chars_to_send sent confirmed = Raised e ->
  exists (char : str) (k : nat),
    In char sent
    /\ e = Exception (custom_decode char)
    /\ nth_error (tl confirmed) k = Some (custom_decode char)
    /\ displacement_tolerance < k < length (tl confirmed).
Proof.
  unfold get_remaining_chars_to_send.
  destruct (continue_point sent confirmed) as [[i|]|e'] eqn:C;
    intro H; inversion H; subst e'.
  unfold continue_point in C. apply for_loop_raised in C.
  destruct C as (c & j & k & I & E & X & T).
  apply in_map_iff in I. destruct I as (char & D & I). subst c.
  destruct (index_hit _ _ _ _ X) as [_ Hk].
  assert (nth_error (tl confirmed) k = Some (custom_decode char)) as Nk.
  { rewrite <- (Nat.add_0_r k), <- nth_error_skipn, Hk. reflexivity. }
  exists char, k. repeat split; auto; [lia|].
  apply nth_error_Some. congruence.
Qed.

Lemma raises_only_beyond_tolerance_witness :
  exists (char : str) (k : nat),
    In char (chars (lit "Hi, you"))
    /\ Exception (lit ",") = Exception (custom_decode char)
    /\ nth_error (tl (chars (lit " Hi?!;, you"))) k
       = Some (custom_decode char)
    /\ displacement_tolerance < k < length (tl (chars (lit " Hi?!;, you"))).
Proof.
  apply (raises_only_beyond_tolerance
           (chars (lit "Hi, you")) (chars (lit " Hi?!;, you"))
           (Exception (lit ","))).
  vm_compute. reflexivity.
Defined.

(** A turn that found its character, or raised, does the same when
    more characters stand behind the received ones. *)
Lemma body_ahead_more (ahead more : list str) (char : str) :
  match body_ahead ahead char with
  | Break => True
  | f => body_ahead (ahead ++ more) char = f
  end.
Proof.
  unfold body_ahead.
  destruct (str_eqb char newline); [reflexivity|].
  destruct ahead as [|y ahead]; [exact I|].
  destruct (find_first char (y :: ahead)) as [d|] eqn:F; [|exact I].
  change ((y :: ahead) ++ more) with (y :: (ahead ++ more)).
  cbv iota.
  change (y :: (ahead ++ more)) with ((y :: ahead) ++ more).
  rewrite (find_first_app _ _ more _ F).
  destruct (d =? 0); [reflexivity|].
  destruct (d <=? displacement_tolerance); reflexivity.
Qed.

Lemma for_loop_more (to_send more : list str) :
  forall (received : list str) (i j : nat),
    j <= length received ->
    match for_loop received to_send i j with
    | Ok None => for_loop (received ++ more) to_send i j = Ok None
    | Raised e => for_loop (received ++ more) to_send i j = Raised e
    | Ok (Some n) =>
        match for_loop (received ++ more) to_send i j with
        | Ok (Some n') => n <= n'
        | _ => True
        end
    end.
Proof.
  induction to_send as [|char rest IH]; intros received i j L; simpl;
    [reflexivity|].
  rewrite !loop_body_ahead.
  rewrite skipn_app.
  replace (j - length received) with 0 by lia. simpl skipn.
  pose proof (body_ahead_more (skipn j received) more char) as M.
  pose proof (body_ahead_bound (skipn j received) char) as B.
  rewrite length_skipn in B.
  destruct (body_ahead (skipn j received) char) as [d| |e] eqn:A.
  - rewrite M. simpl. apply IH. specialize (B d eq_refl). lia.
  - simpl.
    destruct (body_ahead (skipn j received ++ more) char) as [d| |e];
      simpl; [|lia|exact I].
    destruct (for_loop (received ++ more) rest (S i) (j + d))
      as [[n'|]|e] eqn:F; [|exact I|exact I].
    apply for_loop_stop in F. lia.
  - rewrite M. reflexivity.
Qed.

(** X6: characters confirmed later do not take back what the earlier
    ones settled: when nothing was left to send nothing is, when the
    call raised it raises the same, and a resume point does not move
    towards the front. *)
Theorem more_confirmed_never_moves_back
        (sent confirmed more : list str) :
  confirmed <> [] ->
  (continue_point sent confirmed = Ok None ->
   continue_point sent (confirmed ++ more) = Ok None)
  /\ (forall e : exn,
         continue_point sent confirmed = Raised e ->
         continue_point sent (confirmed ++ more) = Raised e)
  /\ (forall i i' : nat,
         continue_point sent confirmed = Ok (Some i) ->
         continue_point sent (confirmed ++ more) = Ok (Some i') ->
         i <= i').
Proof.
  intro NE. destruct confirmed as [|a received]; [congruence|].
  unfold continue_point. cbv zeta. simpl tl.
  pose proof (for_loop_more (map custom_decode sent) more received 0 0
                            (Nat.le_0_l _)) as M.
  destruct (for_loop received (map custom_decode sent) 0 0) as [[n|]|e].
  - split; [discriminate|]. split; [discriminate|].
    intros i i' Hi Hi'. inversion Hi; subst. rewrite Hi' in M. exact M.
  - split; [intros _; exact M|]. split; discriminate.
  - split; [discriminate|]. split; [|discriminate].
    intros e' He. inversion He; subst. exact M.
Qed.

(** "Hello world " when " Hello" was confirmed, and when " Hello wor"
    was: the resume point goes from 5 to 9. *)
Lemma more_confirmed_never_moves_back_witness : 5 <= 9.
Proof.
  apply (proj2 (proj2 (more_confirmed_never_moves_back
                         (chars (lit "Hello world "))
                         (chars (lit " Hello")) (chars (lit " wor"))
                         ltac:(discriminate)))
           5 9); vm_compute; reflexivity.
Defined.

End ResyncOutcomes.

(** ** More on the word chunker *)

Section ChunkerMore.

Import Chunker Words.

(** X7: the units depend on the text only, not on how it is cut into
    fragments. *)
Theorem chunking_ignores_fragment_boundaries (f1 f2 : list str) :
  join f1 = join f2 ->
  text_chunker (stream f1) = text_chunker (stream f2).
Proof.
  intro E. unfold stream. rewrite !text_chunker_units, E. reflexivity.
Qed.

Lemma chunking_ignores_fragment_boundaries_witness :
  text_chunker (stream [lit "Hel"; lit "lo wor"; lit "ld"])
  = text_chunker (stream [lit "Hello "; lit ""; lit "world"]).
Proof.
  apply chunking_ignores_fragment_boundaries. reflexivity.
Defined.

Lemma no_spaces_app (a b : str) :
  no_spaces (a ++ b) = no_spaces a ++ no_spaces b.
Proof. apply filter_app. Qed.

Lemma no_spaces_space (t : str) : no_spaces (space :: t) = no_spaces t.
Proof. reflexivity. Qed.

Lemma no_spaces_units_of (text : str) :
  forall word : str,
    no_spaces (join (units_of word text)) = no_spaces (word ++ text).
Proof.
  unfold join.
  induction text as [|c text IH]; intro word.
  - destruct word as [|x word]; [reflexivity|].
    change (units_of (x :: word) []) with [(x :: word) ++ [space]].
    cbn [concat]. rewrite !app_nil_r, no_spaces_app.
    change (no_spaces [space]) with (@nil N). apply app_nil_r.
  - cbn [units_of]. destruct (N.eqb c space) eqn:E.
    + apply N.eqb_eq in E. subst c.
      rewrite no_spaces_app, no_spaces_space.
      destruct word as [|x word].
      * rewrite IH. reflexivity.
      * cbn [concat]. rewrite !no_spaces_app, IH.
        change (no_spaces [space]) with (@nil N).
        rewrite app_nil_r. reflexivity.
    + rewrite IH, <- app_assoc. reflexivity.
Qed.

(** X8: on every input the units hold the characters of the fragments
    that are not spaces, all of them, once and in order. *)
Theorem chunker_keeps_every_other_character (fragments : list str) :
  no_spaces (join (texts (text_chunker (stream fragments))))
  = no_spaces (join fragments).
Proof.
  unfold stream. rewrite text_chunker_units, texts_units.
  apply (no_spaces_units_of (join fragments) []).
Qed.

Lemma flush_extends (st : state) :
  exists tail, output_queue (flush st) = output_queue st ++ tail.
Proof.
  unfold flush. destruct (buffer st); simpl.
  - exists []. rewrite app_nil_r. reflexivity.
  - eexists. reflexivity.
Qed.

Lemma for_chars_extends (text : str) :
  forall st : state,
    exists tail, output_queue (for_chars text st) = output_queue st ++ tail.
Proof.
  unfold for_chars.
  induction text as [|c text IH]; intro st; simpl.
  - exists []. rewrite app_nil_r. reflexivity.
  - destruct (IH (on_char st c)) as [t2 E2]. rewrite E2.
    unfold on_char. destruct (N.eqb c space).
    + destruct (flush_extends st) as [t1 E1]. rewrite E1.
      exists (t1 ++ t2). rewrite app_assoc. reflexivity.
    + simpl. exists t2. reflexivity.
Qed.

Lemma while_loop_extends (q : list item) :
  forall st : state,
    exists tail,
      output_queue (fst (while_loop q st)) = output_queue st ++ tail.
Proof.
  induction q as [|[text|] q IH]; intro st; simpl.
  - exists []. rewrite app_nil_r. reflexivity.
  - destruct (IH (for_chars text st)) as [t2 E2]. rewrite E2.
    destruct (for_chars_extends text st) as [t1 E1]. rewrite E1.
    exists (t1 ++ t2). rewrite app_assoc. reflexivity.
  - destruct (flush_extends st) as [t1 E1]. rewrite E1.
    exists (t1 ++ [None]). rewrite app_assoc. reflexivity.
Qed.

Lemma while_loop_app (q1 q2 : list item) :
  forall st : state,
    while_loop (q1 ++ q2) st
    = if snd (while_loop q1 st) then while_loop q1 st
      else while_loop q2 (fst (while_loop q1 st)).
Proof.
  induction q1 as [|[text|] q1 IH]; intro st; simpl; auto.
Qed.

Lemma while_loop_texts_only (fragments : list str) :
  forall st : state,
    ~ In None (output_queue st) ->
    snd (while_loop (map Some fragments) st) = false
    /\ ~ In None (output_queue (fst (while_loop (map Some fragments) st))).
Proof.
  assert (forall st, ~ In None (output_queue st) ->
                     ~ In None (output_queue (flush st))) as F.
  { intros st H. unfold flush. destruct (buffer st); simpl; [exact H|].
    rewrite in_app_iff. simpl. intros [?|[?|[]]]; [auto|discriminate]. }
  assert (forall text st, ~ In None (output_queue st) ->
                          ~ In None (output_queue (for_chars text st))) as C.
  { unfold for_chars. induction text as [|c text IH]; intros st H; simpl;
      [exact H|].
    apply IH. unfold on_char. destruct (N.eqb c space); [apply F|]; auto. }
  induction fragments as [|f fragments IH]; intros st H; simpl; auto.
Qed.

(** X9: the chunker works on line: what it has put on the output queue
    for the items read so far stays in front when more items come; and
    as long as no end marker has come it has not returned and has put no
    end marker out. *)
Theorem chunker_output_grows_at_the_end :
  (forall q1 q2 : list item,
      exists tail, text_chunker (q1 ++ q2) = text_chunker q1 ++ tail)
  /\ (forall fragments : list str,
         terminates (map Some fragments) = false
         /\ ~ In None (text_chunker (map Some fragments))).
Proof.
  split.
  - intros q1 q2. unfold text_chunker. rewrite while_loop_app.
    destruct (snd (while_loop q1 (mkState [] []))).
    + exists []. rewrite app_nil_r. reflexivity.
    + apply while_loop_extends.
  - intro fragments. unfold terminates, text_chunker.
    apply while_loop_texts_only. simpl. tauto.
Qed.

Lemma units_of_word (word : str) :
  forall (held text : str),
    ~ In space word ->
    units_of held (word ++ text) = units_of (held ++ word) text.
Proof.
  induction word as [|c word IH]; intros held text S; simpl.
  - rewrite app_nil_r. reflexivity.
  - replace (N.eqb c space) with false
      by (symmetry; apply N.eqb_neq; intro E; apply S; left; auto).
    rewrite IH by (intro H; apply S; right; exact H).
    rewrite <- app_assoc. reflexivity.
Qed.

Lemma units_of_join (units : list str) :
  Forall text_unit units -> units_of [] (join units) = units.
Proof.
  induction 1 as [|u units (word & -> & N & S) _ IH]; [reflexivity|].
  unfold join in *. simpl concat.
  rewrite <- app_assoc, units_of_word by exact S.
  simpl. destruct word as [|c word]; [congruence|].
  rewrite IH. reflexivity.
Qed.

(** X10: chunking text units that were joined, however the text is cut
    into fragments, gives the same units again. *)
Theorem chunking_joined_units_gives_them_back
        (units fragments : list str) :
  Forall text_unit units ->
  join fragments = join units ->
  text_chunker (stream fragments) = map Some units ++ [None].
Proof.
  intros U E. unfold stream.
  rewrite text_chunker_units, E, units_of_join by exact U. reflexivity.
Qed.

Lemma chunking_joined_units_gives_them_back_witness :
  text_chunker (stream [lit "Hello wo"; lit "rld "])
  = map Some [lit "Hello "; lit "world "] ++ [None].
Proof.
  apply chunking_joined_units_gives_them_back.
  - repeat constructor.
    + exists (lit "Hello"). repeat split; [discriminate|].
      simpl. intros [H|[H|[H|[H|[H|[]]]]]]; discriminate H.
    + exists (lit "world"). repeat split; [discriminate|].
      simpl. intros [H|[H|[H|[H|[H|[]]]]]]; discriminate H.
  - reflexivity.
Defined.

End ChunkerMore.

(** ** The completion stream and the frames sent *)

Section CompletionFacts.

Import Chunker Words Completion Ledger Link.

Lemma track_chars (text : str) :
  forall l : list str, track text l = l ++ chars text.
Proof.
  unfold track.
  induction text as [|c text IH]; intro l; simpl.
  - rewrite app_nil_r. reflexivity.
  - rewrite IH, <- app_assoc. reflexivity.
Qed.

Lemma texts_app (q1 q2 : list item) : texts (q1 ++ q2) = texts q1 ++ texts q2.
Proof.
  induction q1 as [|[t|] q1 IH]; simpl; [reflexivity| |exact IH].
  rewrite IH. reflexivity.
Qed.

Lemma texts_map_Some (l : list str) : texts (map Some l) = l.
Proof. induction l as [|t l IH]; simpl; [|rewrite IH]; reflexivity. Qed.

Lemma join_app (a b : list str) : join (a ++ b) = join a ++ join b.
Proof. apply concat_app. Qed.

Lemma chars_app (a b : str) : chars (a ++ b) = chars a ++ chars b.
Proof. apply map_app. Qed.

Lemma join_chars (t : str) : join (chars t) = t.
Proof.
  unfold join, chars. induction t as [|c t IH]; simpl; [|rewrite IH];
    reflexivity.
Qed.

Lemma on_delta_ledger (d : delta) (st : locals) :
  ledger_ok st ->
  ledger_ok (fst (on_delta d st))
  /\ forall v, snd (on_delta d st) = Some v ->
               ret_content v = join (texts (text_queue (fst (on_delta d st)))).
Proof.
  intros (C & N & R). unfold on_delta.
  destruct (content d) as [[|c text]|]; simpl.
  - split; [|discriminate]. repeat split; assumption.
  - split; [|discriminate]. unfold ledger_ok.
    cbn [fst text_queue chars_to_send response_content].
    rewrite texts_app, track_chars, join_app, chars_app, C, R.
    cbn [texts].
    split; [rewrite <- app_assoc; unfold join at 2; simpl;
            rewrite app_nil_r; reflexivity|].
    split; [|reflexivity].
    apply Forall_app. split; [exact N|].
    constructor; [discriminate | constructor].
  - unfold ledger_ok; simpl. rewrite texts_app. simpl. rewrite app_nil_r.
    split; [repeat split; assumption|].
    intros v H. inversion H; subst. simpl. rewrite R. reflexivity.
Qed.

Lemma async_for_ledger (response : list delta) :
  forall st : locals,
    ledger_ok st ->
    ledger_ok (fst (async_for response st))
    /\ forall v, snd (async_for response st) = Some v ->
                 ret_content v
                 = join (texts (text_queue (fst (async_for response st)))).
Proof.
  induction response as [|d rest IH]; intros st L; simpl.
  - split; [exact L | discriminate].
  - destruct (on_delta_ledger d st L) as [L' V].
    destruct (on_delta d st) as [st' [v|]]; simpl in *.
    + split; [exact L' | exact V].
    + apply IH. exact L'.
Qed.

(** X11: the ledger [chars_to_send] that [chat_completion] fills spells,
    character by character, the texts it has put on the queue; no text on
    the queue is empty; and the content it returns is those texts
    joined. *)
Theorem completion_ledger_spells_the_queue (response : list delta) :
  let st := fst (chat_completion response [] []) in
  chars_to_send st = chars (join (texts (text_queue st)))
  /\ Forall (fun t : str => t <> []) (texts (text_queue st))
  /\ forall v : ret_val,
       snd (chat_completion response [] []) = Some v ->
       ret_content v = join (texts (text_queue st)).
Proof.
  unfold chat_completion.
  destruct (async_for_ledger response (mkLocals None [] [] []))
    as [(C & N & _) V].
  - repeat split; constructor.
  - cbv zeta. repeat split; assumption.
Qed.

Lemma completion_ledger_spells_the_queue_witness :
  ret_content (mkRet (Some (lit "assistant")) (lit "Hi you"))
  = join (texts (text_queue
       (fst (chat_completion
               [mkDelta (Some (lit "")) (Some (lit "assistant"));
                mkDelta (Some (lit "Hi ")) None;
                mkDelta (Some (lit "you")) None;
                mkDelta None None] [] [])))).
Proof.
  apply (proj2 (proj2 (completion_ledger_spells_the_queue
                         [mkDelta (Some (lit "")) (Some (lit "assistant"));
                          mkDelta (Some (lit "Hi ")) None;
                          mkDelta (Some (lit "you")) None;
                          mkDelta None None]))).
  reflexivity.
Defined.

Lemma async_for_content (before : list delta) :
  Forall has_content before ->
  forall st : locals,
    exists role',
      async_for before st
      = (mkLocals role'
                  (response_content st ++ spoken before)
                  (text_queue st ++ map Some (spoken before))
                  (chars_to_send st ++ chars (join (spoken before))),
         None).
Proof.
  induction 1 as [|d before H _ IH]; intros [r rc q cs]; simpl.
  - exists r. rewrite !app_nil_r. reflexivity.
  - unfold on_delta, has_content in *.
    destruct (content d) as [[|c text]|]; [| |congruence]; cbn -[track].
    + apply IH.
    + destruct (IH (mkLocals r (rc ++ [c :: text]) (q ++ [Some (c :: text)])
                             (track (c :: text) cs))) as [role' E].
      exists role'. etransitivity; [exact E|].
      cbn [response_content text_queue chars_to_send].
      rewrite track_chars. unfold chars, join. simpl.
      rewrite ?map_app, <- ?app_assoc. reflexivity.
Qed.

Lemma async_for_app (before rest : list delta) (st : locals) :
  Forall has_content before ->
  async_for (before ++ rest) st = async_for rest (fst (async_for before st)).
Proof.
  intro H. revert st.
  induction H as [|d before H _ IH]; intro st; simpl; [reflexivity|].
  unfold on_delta, has_content in *.
  destruct (content d) as [[|c text]|]; [| |congruence]; apply IH.
Qed.

(** X12: at the first chunk without a content, [chat_completion] puts
    the end marker behind the texts queued, returns their concatenation,
    and reads no chunk that follows. *)
Theorem completion_ends_at_first_null_content
        (before after : list delta) (the_end : delta) :
  Forall has_content before ->
  content the_end = None ->
  let run := chat_completion (before ++ the_end :: after) [] [] in
  text_queue (fst run) = stream (spoken before)
  /\ chars_to_send (fst run) = chars (join (spoken before))
  /\ exists r, snd run = Some (mkRet r (join (spoken before))).
Proof.
  intros H E. unfold chat_completion. cbv zeta.
  rewrite (async_for_app _ _ _ H).
  destruct (async_for_content _ H (mkLocals None [] [] [])) as [role' A].
  rewrite A. simpl. unfold on_delta. rewrite E. simpl.
  repeat split. eexists. reflexivity.
Qed.

Lemma completion_ends_at_first_null_content_witness :
  let run :=
    chat_completion
      ([mkDelta (Some (lit "")) (Some (lit "assistant"));
        mkDelta (Some (lit "Hel")) None; mkDelta (Some (lit "lo yo")) None;
        mkDelta (Some (lit "u")) None]
         ++ mkDelta None None :: [mkDelta (Some (lit "late")) None]) [] [] in
  text_queue (fst run)
  = stream (spoken [mkDelta (Some (lit "")) (Some (lit "assistant"));
                    mkDelta (Some (lit "Hel")) None;
                    mkDelta (Some (lit "lo yo")) None;
                    mkDelta (Some (lit "u")) None])
  /\ chars_to_send (fst run)
     = chars (join (spoken [mkDelta (Some (lit "")) (Some (lit "assistant"));
                            mkDelta (Some (lit "Hel")) None;
                            mkDelta (Some (lit "lo yo")) None;
                            mkDelta (Some (lit "u")) None]))
  /\ exists r,
       snd run
       = Some (mkRet r (join (spoken
                 [mkDelta (Some (lit "")) (Some (lit "assistant"));
                  mkDelta (Some (lit "Hel")) None;
                  mkDelta (Some (lit "lo yo")) None;
                  mkDelta (Some (lit "u")) None]))).
Proof.
  apply completion_ends_at_first_null_content.
  - repeat constructor; discriminate.
  - reflexivity.
Defined.

(** X13: when the completion stream ends and no chunk was without a
    content, [chat_completion] returns nothing and has put no end marker
    on the queue, so that the chunker reading the queue does not
    return. *)
Theorem completion_without_null_content_leaves_chunker_waiting
        (response : list delta) :
  Forall has_content response ->
  let run := chat_completion response [] [] in
  snd run = None
  /\ text_queue (fst run) = map Some (spoken response)
  /\ terminates (text_queue (fst run)) = false.
Proof.
  intro H. unfold chat_completion. cbv zeta.
  destruct (async_for_content _ H (mkLocals None [] [] [])) as [role' A].
  rewrite A. simpl. repeat split.
  unfold terminates.
  apply (while_loop_texts_only (spoken response) (mkState [] [])).
  simpl. tauto.
Qed.

Lemma completion_without_null_content_leaves_chunker_waiting_witness :
  let run :=
    chat_completion [mkDelta (Some (lit "")) (Some (lit "assistant"));
                     mkDelta (Some (lit "Hello")) None] [] [] in
  snd run = None
  /\ text_queue (fst run)
     = map Some (spoken [mkDelta (Some (lit "")) (Some (lit "assistant"));
                         mkDelta (Some (lit "Hello")) None])
  /\ terminates (text_queue (fst run)) = false.
Proof.
  apply completion_without_null_content_leaves_chunker_waiting.
  repeat constructor; discriminate.
Defined.

End CompletionFacts.

(** ** Sending and listening *)

Section LinkFacts.

Import Chunker Words Completion Link.




Lemma send_text_open (units : list str) (later : list item) :
  forall sent_before : list text_message,
    send_text (mkSocket sent_before None) (map Some units ++ None :: later)
    = (mkSocket (sent_before
                   ++ map (fun u => mkText u (Some false)) units
                   ++ [mkText [] None]) None,
       Finished).
Proof.
  induction units as [|u units IH]; intro sent_before; simpl.
  - reflexivity.
  - unfold send. simpl. rewrite IH, <- app_assoc. reflexivity.
Qed.

(** X15: from the completion to the provider.  When the completion
    ends with a chunk without content and the connection stays open, the
    frames sent are text units, one frame each with
    [try_trigger_generation] false, that hold the characters of the
    completion that are not spaces, and then one frame with the empty
    text, the only one and the last. *)
Theorem completion_words_reach_the_provider
        (before after : list delta) (the_end : delta) :
  Forall has_content before ->
  content the_end = None ->
  let text_queue :=
    Completion.text_queue
      (fst (chat_completion (before ++ the_end :: after) [] [])) in
  exists units : list str,
    Forall text_unit units
    /\ no_spaces (join units) = no_spaces (join (spoken before))
    /\ send_text (mkSocket [] None) (text_chunker text_queue)
       = (mkSocket (map (fun u => mkText u (Some false)) units
                      ++ [mkText [] None]) None,
          Finished).
Proof.
  intros H E. cbv zeta.
  unfold chat_completion.
  rewrite (async_for_app _ _ _ H).
  destruct (async_for_content _ H (mkLocals None [] [] [])) as [role' A].
  rewrite A. simpl. unfold on_delta. rewrite E. simpl.
  rewrite text_chunker_units.
  exists (units_of [] (join (spoken before))).
  split; [apply units_of_text_unit; simpl; tauto|].
  split; [apply (no_spaces_units_of (join (spoken before)) [])|].
  replace [None] with ([] ++ None :: @nil item) by reflexivity.
  rewrite app_nil_l. apply (send_text_open _ [] []).
Qed.

Lemma completion_words_reach_the_provider_witness :
  exists units : list str,
    Forall text_unit units
    /\ no_spaces (join units)
       = no_spaces (join (spoken [mkDelta (Some (lit "Hi yo")) None;
                                  mkDelta (Some (lit "u")) None]))
    /\ send_text (mkSocket [] None)
         (text_chunker
            (Completion.text_queue
               (fst (chat_completion
                       ([mkDelta (Some (lit "Hi yo")) None;
                         mkDelta (Some (lit "u")) None]
                          ++ mkDelta None None :: []) [] []))))
       = (mkSocket (map (fun u => mkText u (Some false)) units
                      ++ [mkText [] None]) None,
          Finished).
Proof.
  apply (completion_words_reach_the_provider
           [mkDelta (Some (lit "Hi yo")) None; mkDelta (Some (lit "u")) None]
           [] (mkDelta None None)).
  - repeat constructor; discriminate.
  - reflexivity.
Defined.

Variable b64decode : str -> option bytes.

(** The messages [listen] passes before it sees a final one. *)
Lemma listen_app (before rest : list message) (closes : bool) :
  Forall (fun data => is_final data = false /\ decodable b64decode data)
         before ->
  forall st : heard,
    listen b64decode (before ++ rest) closes st
    = listen b64decode rest closes
        (mkHeard (audio_queue st
                    ++ map Some (flat_map (audio_of b64decode) before))
                 (chars_received st ++ concat (map confirmed_by before))).
Proof.
  induction 1 as [|data before [F D] _ IH]; intros [q cs].
  - simpl. rewrite !app_nil_r. reflexivity.
  - change ((data :: before) ++ rest) with (data :: (before ++ rest)).
    cbn [listen]. rewrite F. unfold decodable in D.
    destruct (audio data) as [[|c a]|] eqn:Ea;
      [| destruct (b64decode (c :: a)) as [audio_data|] eqn:Eb;
         [|congruence] |];
      destruct (normalizedAlignment data) as [[[[|x xs]|]]|] eqn:En;
      rewrite IH; cbn [flat_map map concat audio_queue chars_received];
      set (A := flat_map (audio_of b64decode) before);
      set (C := concat (map confirmed_by before));
      unfold audio_of, confirmed_by; rewrite ?Ea, ?Eb, ?En;
      cbn [alignment_chars app map];
      rewrite ?app_nil_r, <- ?app_assoc; simpl;
      rewrite ?app_nil_r, <- ?app_assoc; simpl; reflexivity.
Qed.

(** X16: over messages that are not final and whose audio, where
    they carry one, can be decoded.  When the provider closes the
    connection behind them, [listen] raises [ConnectionClosed]; by then it
    has added to [chars_received] the characters of all the messages in
    their order, and to the audio queue their audio, decoded, and no end
    marker.  When a message follows whose audio cannot be decoded,
    [listen] raises the [ValueError] of the decoder there, with the same
    characters and audio added and nothing of that message. *)
Theorem listen_keeps_what_was_confirmed
        (inbound : list message) (st : heard) :
  Forall (fun data => is_final data = false /\ decodable b64decode data)
         inbound ->
  listen b64decode inbound true st
  = (mkHeard (audio_queue st
                ++ map Some (flat_map (audio_of b64decode) inbound))
             (chars_received st ++ concat (map confirmed_by inbound)),
     ConnectionClosed)
  /\ forall (bad : message) (later : list message) (closes : bool),
       ~ decodable b64decode bad ->
       listen b64decode (inbound ++ bad :: later) closes st
       = (mkHeard (audio_queue st
                     ++ map Some (flat_map (audio_of b64decode) inbound))
                  (chars_received st ++ concat (map confirmed_by inbound)),
          ValueErrorRaised).
Proof.
  intro H. split.
  - rewrite <- (app_nil_r inbound) at 1.
    rewrite (listen_app _ [] true H). reflexivity.
  - intros bad later closes B. rewrite (listen_app _ _ closes H).
    cbn [listen]. unfold decodable in B.
    destruct (audio bad) as [[|c a]|]; try (exfalso; apply B; exact I).
    destruct (b64decode (c :: a)) as [audio_data|];
      [exfalso; apply B; discriminate | reflexivity].
Qed.

(** X17: when the audio of the messages up to the first final one,
    and of that one, can be decoded where they carry one, [listen] returns
    at the first final message: it has added the characters and the audio
    of the messages up to that one and of that one, then the end marker to
    the audio queue, and reads nothing that comes behind. *)
Theorem listen_ends_at_the_final_message
        (before later : list message) (final : message)
        (closes : bool) (st : heard) :
  Forall (fun data => is_final data = false /\ decodable b64decode data)
         before ->
  is_final final = true ->
  decodable b64decode final ->
  listen b64decode (before ++ final :: later) closes st
  = (mkHeard (audio_queue st
                ++ map Some (flat_map (audio_of b64decode)
                                      (before ++ [final]))
                ++ [None])
             (chars_received st
                ++ concat (map confirmed_by (before ++ [final]))),
     Finished).
Proof.
  intros H F D. rewrite (listen_app _ _ closes H).
  cbn [listen]. rewrite F.
  rewrite flat_map_app, !map_app, concat_app.
  unfold decodable in D. cbn [flat_map map concat].
  set (A := flat_map (audio_of b64decode) before).
  set (C := concat (map confirmed_by before)).
  destruct (audio final) as [[|c a]|] eqn:Ea;
    [| destruct (b64decode (c :: a)) as [audio_data|] eqn:Eb;
       [|congruence] |];
    destruct (normalizedAlignment final) as [[[[|x xs]|]]|] eqn:En;
    unfold audio_of, confirmed_by; rewrite ?Ea, ?Eb, ?En;
    cbn [alignment_chars audio_queue chars_received app map];
    rewrite ?app_nil_r, <- ?app_assoc; simpl;
      rewrite ?app_nil_r, <- ?app_assoc; simpl; reflexivity.
Qed.

End LinkFacts.

(** A provider that sends audio, confirms "Hi" and then closes the
    connection; and one that sends a payload that cannot be decoded
    before it does. *)
Lemma listen_keeps_what_was_confirmed_witness :
  Link.listen
    (fun s => if str_eqb s (lit "AA==") then Some [Byte.x00] else None)
    [Link.mkMessage (Some (lit "AA==")) None None;
     Link.mkMessage None
       (Some (Link.mkAlignment (Some (chars (lit " Hi"))))) (Some false)]
    true (Link.mkHeard [] [])
  = (Link.mkHeard [Some [Byte.x00]] (chars (lit " Hi")),
     Link.ConnectionClosed)
  /\ Link.listen
       (fun s => if str_eqb s (lit "AA==") then Some [Byte.x00] else None)
       ([Link.mkMessage (Some (lit "AA==")) None None;
         Link.mkMessage None
           (Some (Link.mkAlignment (Some (chars (lit " Hi"))))) (Some false)]
          ++ Link.mkMessage (Some (lit "A"))
               (Some (Link.mkAlignment (Some (chars (lit " you")))))
               (Some true)
          :: [])
       true (Link.mkHeard [] [])
     = (Link.mkHeard [Some [Byte.x00]] (chars (lit " Hi")),
        Link.ValueErrorRaised).
Proof.
  destruct (listen_keeps_what_was_confirmed
              (fun s => if str_eqb s (lit "AA==") then Some [Byte.x00]
                        else None)
              [Link.mkMessage (Some (lit "AA==")) None None;
               Link.mkMessage None
                 (Some (Link.mkAlignment (Some (chars (lit " Hi")))))
                 (Some false)]
              (Link.mkHeard [] [])) as [A B].
  - repeat constructor; simpl; discriminate.
  - split; [exact A|].
    apply (B (Link.mkMessage (Some (lit "A"))
                (Some (Link.mkAlignment (Some (chars (lit " you")))))
                (Some true)) [] true).
    simpl. intro H. apply H. reflexivity.
Defined.

(** A provider that sends audio, then the final message, then more. *)
Lemma listen_ends_at_the_final_message_witness :
  Link.listen (fun _ => Some [Byte.x00])
    ([Link.mkMessage (Some (lit "AA==")) None None]
       ++ Link.mkMessage None None (Some true)
       :: [Link.mkMessage (Some (lit "AA==")) None None])
    false (Link.mkHeard [] [])
  = (Link.mkHeard
       ([] ++ map Some
                  (flat_map (Link.audio_of (fun _ => Some [Byte.x00]))
                     ([Link.mkMessage (Some (lit "AA==")) None None]
                        ++ [Link.mkMessage None None (Some true)]))
           ++ [None])
       ([] ++ concat
                (map Link.confirmed_by
                   ([Link.mkMessage (Some (lit "AA==")) None None]
                      ++ [Link.mkMessage None None (Some true)]))),
     Link.Finished).
Proof.
  apply (listen_ends_at_the_final_message (fun _ => Some [Byte.x00])).
  - repeat constructor; simpl; discriminate.
  - reflexivity.
  - exact I.
Defined.

(** ** Playing the audio *)

Section PlaybackFacts.

Import MPV Link Playback.

Lemma write_loop_chunks (p : handle) (chunks : list bytes) :
  forall (rest : list (option bytes)) (io : pipes),
    write_loop (Some p) (map Some chunks ++ rest) io
    = write_loop (Some p) rest
        (mkPipes (written io ++ map (pair p) chunks) (closed io)).
Proof.
  induction chunks as [|c chunks IH]; intros rest [wr cl]; simpl.
  - rewrite app_nil_r. reflexivity.
  - rewrite IH. simpl. rewrite <- app_assoc. reflexivity.
Qed.

(** After a start that returned, the instance holds a process: the one
    it held, still running, or a new one. *)
Lemma start_process_ok (w w' : world) (self self' : MPVProcessSingleton)
      (u : unit) :
  start_process w self = (Ok u, w', self') ->
  exists p,
    process self' = Some p
    /\ which w' = which w
    /\ ((w' = w /\ process self = Some p /\ poll w p = None)
        \/ (p = length (launched w)
            /\ launched w' = launched w ++ [p]
            /\ poll w' = poll w)).
Proof.
  unfold start_process.
  destruct (negb (is_installed w (lit "mpv"))); [discriminate|].
  destruct (process self) as [p|] eqn:P.
  - destruct (poll w p) as [c|] eqn:R; simpl; intro H; inversion H; subst.
    + exists (length (launched w)). simpl. auto 10.
    + exists p. auto 10.
  - simpl; intro H; inversion H; subst.
    exists (length (launched w)). simpl. auto 10.
Qed.

(** X18: with mpv installed and an audio queue that holds the end
    marker, [stream] returns; it has written the chunks in front of the
    marker, in their order, to the input of one process, has closed that
    input, and the instance holds no process any more.  The process is
    the one the instance held when that was running, and then nothing is
    launched; otherwise it is a new one, the only one launched.  For the
    other processes [poll] reports what it did, and the process written
    to has ended. *)
Theorem stream_plays_the_chunks_and_stops
        (returncode : Z) (chunks : list bytes)
        (later : list (option bytes)) (m : machine) :
  is_installed (the_world m) (lit "mpv") = true ->
  let m' := fst (stream returncode (map Some chunks ++ None :: later) m) in
  let held :=
    match process (new (the_class m)) with
    | Some p0 =>
        match poll (the_world m) p0 with
        | None => Some p0
        | Some _ => None
        end
    | None => None
    end in
  let p :=
    match held with
    | Some p0 => p0
    | None => length (launched (the_world m))
    end in
  snd (stream returncode (map Some chunks ++ None :: later) m) = Finished
  /\ the_class m' = Some (mkSingleton None)
  /\ written (the_pipes m') = written (the_pipes m) ++ map (pair p) chunks
  /\ closed (the_pipes m') = closed (the_pipes m) ++ [p]
  /\ launched (the_world m')
     = match held with
       | Some _ => launched (the_world m)
       | None => launched (the_world m) ++ [p]
       end
  /\ which (the_world m') = which (the_world m)
  /\ poll (the_world m') p <> None
  /\ forall h : handle,
       h <> p -> poll (the_world m') h = poll (the_world m) h.
Proof.
  intro I. cbv zeta. unfold stream, start_process. rewrite I. simpl negb.
  cbv iota.
  destruct (process (new (the_class m))) as [p0|] eqn:P.
  - destruct (poll (the_world m) p0) as [c|] eqn:R.
    + simpl. rewrite write_loop_chunks. simpl.
      rewrite Nat.eqb_refl.
      repeat split; try discriminate.
      intros h N. apply Nat.eqb_neq in N. rewrite N. reflexivity.
    + rewrite P, write_loop_chunks. simpl.
      unfold stop_process. rewrite P, R. simpl.
      rewrite Nat.eqb_refl.
      repeat split; try discriminate.
      intros h N. apply Nat.eqb_neq in N. rewrite N. reflexivity.
  - simpl. rewrite write_loop_chunks. simpl.
    rewrite Nat.eqb_refl.
    repeat split; try discriminate.
    intros h N. apply Nat.eqb_neq in N. rewrite N. reflexivity.
Qed.

(** The instance holds process 7, which is running: the chunks go to
    it and nothing is launched. *)
Lemma stream_plays_the_chunks_and_stops_witness :
  let m := mkMachine
             (mkWorld (fun _ => Some (lit "/usr/bin/mpv")) (fun _ => None)
                      (seq 0 8))
             (mkPipes [] []) (Some (mkSingleton (Some 7))) in
  let m' := fst (stream Z0 (map Some [[Byte.x01]; [Byte.x02]] ++ None :: [])
                        m) in
  snd (stream Z0 (map Some [[Byte.x01]; [Byte.x02]] ++ None :: []) m)
  = Finished
  /\ the_class m' = Some (mkSingleton None)
  /\ written (the_pipes m') = [(7, [Byte.x01]); (7, [Byte.x02])]
  /\ closed (the_pipes m') = [7]
  /\ launched (the_world m') = seq 0 8
  /\ which (the_world m') = which (the_world m)
  /\ poll (the_world m') 7 <> None
  /\ forall h : handle,
       h <> 7 -> poll (the_world m') h = poll (the_world m) h.
Proof.
  apply (stream_plays_the_chunks_and_stops
           Z0 [[Byte.x01]; [Byte.x02]] []
           (mkMachine
              (mkWorld (fun _ => Some (lit "/usr/bin/mpv")) (fun _ => None)
                       (seq 0 8))
              (mkPipes [] []) (Some (mkSingleton (Some 7))))).
  reflexivity.
Defined.

(** X19: the two ways [stream] does not play to the end.  Without mpv
    it raises [ValueError] before it reads the queue: nothing is
    launched and nothing written.  On a queue without end marker it
    writes the chunks and stays suspended: the input of the process is
    not closed and the instance goes on holding the process. *)
Theorem stream_without_mpv_or_end_marker
        (returncode : Z) (m : machine) :
  (forall audio_queue : list (option bytes),
      is_installed (the_world m) (lit "mpv") = false ->
      stream returncode audio_queue m
      = (mkMachine (the_world m) (the_pipes m) (Some (new (the_class m))),
         ValueErrorRaised))
  /\ (forall chunks : list bytes,
         is_installed (the_world m) (lit "mpv") = true ->
         let r := stream returncode (map Some chunks) m in
         snd r = Suspended
         /\ closed (the_pipes (fst r)) = closed (the_pipes m)
         /\ exists p : handle,
              the_class (fst r) = Some (mkSingleton (Some p))
              /\ written (the_pipes (fst r))
                 = written (the_pipes m) ++ map (pair p) chunks).
Proof.
  split.
  - intros q I. unfold stream, start_process. rewrite I. reflexivity.
  - intros chunks I. cbv zeta. unfold stream.
    destruct (start_process (the_world m) (new (the_class m)))
      as [[[u|e] w] self] eqn:S.
    + destruct (start_process_ok _ _ _ _ _ S) as (p & P & W & C).
      rewrite P. rewrite <- (app_nil_r (map Some chunks)).
      rewrite write_loop_chunks. simpl.
      split; [reflexivity|]. split; [reflexivity|].
      exists p. destruct self as [pr]. simpl in P. subst pr. auto.
    + exfalso. unfold start_process in S. rewrite I in S. simpl in S.
      destruct (process (new (the_class m))) as [p|];
        [destruct (poll (the_world m) p)|]; discriminate S.
Qed.

Lemma stream_without_mpv_or_end_marker_witness :
  stream Z0 [Some [Byte.x01]; None]
         (mkMachine (mkWorld (fun _ => None) (fun _ => None) [])
                    (mkPipes [] []) None)
  = (mkMachine (mkWorld (fun _ => None) (fun _ => None) [])
               (mkPipes [] []) (Some (new None)),
     ValueErrorRaised).
Proof.
  apply (proj1 (stream_without_mpv_or_end_marker
                  Z0 (mkMachine (mkWorld (fun _ => None) (fun _ => None) [])
                               (mkPipes [] []) None))).
  reflexivity.
Defined.

Lemma stream_fresh (returncode : Z) (chunks : list bytes)
      (later : list (option bytes)) (m : machine) :
  is_installed (the_world m) (lit "mpv") = true ->
  process (new (the_class m)) = None ->
  let p := length (launched (the_world m)) in
  exists w',
    stream returncode (map Some chunks ++ None :: later) m
    = (mkMachine w'
                 (mkPipes (written (the_pipes m) ++ map (pair p) chunks)
                          (closed (the_pipes m) ++ [p]))
                 (Some (mkSingleton None)),
       Finished)
    /\ which w' = which (the_world m)
    /\ launched w' = launched (the_world m) ++ [p].
Proof.
  intros I P. cbv zeta. unfold stream, start_process.
  rewrite I, P. simpl. rewrite write_loop_chunks. simpl.
  eexists. split; [reflexivity|]. simpl. auto.
Qed.

(** X20: two utterances played one after the other, starting with no
    process held: each is written to a process of its own, launched for
    it, the second after the input of the first was closed. *)
Theorem each_utterance_gets_its_own_process
        (rc1 rc2 : Z) (chunks1 chunks2 : list bytes)
        (later1 later2 : list (option bytes)) (m : machine) :
  is_installed (the_world m) (lit "mpv") = true ->
  process (new (the_class m)) = None ->
  let m1 := fst (stream rc1 (map Some chunks1 ++ None :: later1) m) in
  let m2 := fst (stream rc2 (map Some chunks2 ++ None :: later2) m1) in
  let p := length (launched (the_world m)) in
  written (the_pipes m2)
  = written (the_pipes m) ++ map (pair p) chunks1 ++ map (pair (S p)) chunks2
  /\ closed (the_pipes m2) = closed (the_pipes m) ++ [p; S p]
  /\ launched (the_world m2) = launched (the_world m) ++ [p; S p]
  /\ the_class m2 = Some (mkSingleton None).
Proof.
  intros I P. cbv zeta.
  destruct (stream_fresh rc1 chunks1 later1 m I P) as (w1 & E1 & W1 & L1).
  rewrite E1. cbn [fst].
  destruct (stream_fresh rc2 chunks2 later2
              (mkMachine w1
                 (mkPipes (written (the_pipes m)
                             ++ map (pair (length (launched (the_world m))))
                                    chunks1)
                          (closed (the_pipes m)
                             ++ [length (launched (the_world m))]))
                 (Some (mkSingleton None))))
    as (w2 & E2 & W2 & L2).
  - simpl. unfold is_installed in *. rewrite W1. exact I.
  - reflexivity.
  - rewrite E2. simpl in *. rewrite L2, L1, length_app. simpl.
    rewrite Nat.add_1_r, <- !app_assoc. simpl. auto.
Qed.

Lemma each_utterance_gets_its_own_process_witness :
  let m := mkMachine
             (mkWorld (fun _ => Some (lit "/usr/bin/mpv")) (fun _ => None) [])
             (mkPipes [] []) None in
  let m1 := fst (stream Z0 (map Some [[Byte.x01]] ++ None :: []) m) in
  let m2 := fst (stream Z0 (map Some [[Byte.x02]] ++ None :: []) m1) in
  let p := length (launched (the_world m)) in
  written (the_pipes m2)
  = written (the_pipes m) ++ map (pair p) [[Byte.x01]]
      ++ map (pair (S p)) [[Byte.x02]]
  /\ closed (the_pipes m2) = closed (the_pipes m) ++ [p; S p]
  /\ launched (the_world m2) = launched (the_world m) ++ [p; S p]
  /\ the_class m2 = Some (mkSingleton None).
Proof.
  apply (each_utterance_gets_its_own_process Z0 Z0 [[Byte.x01]] [[Byte.x02]]
           [] []); reflexivity.
Defined.

End PlaybackFacts.

(** ** The session *)

Section SessionFacts.

Import Chunker Alignment Session.

(** X21: the ledger over a retry.  When [chars_to_send] is the
    characters of a text, the next attempt gets, as its one text and
    before the end marker, that text from some index on, and as its
    ledger the characters of exactly that text; [chars_received] starts
    empty. *)
Theorem retry_sends_the_rest_of_the_text
        (t : str) (chars_received : list str) (a : attempt) :
  on_connection_closed (chars t) chars_received = Ok a ->
  exists i : nat,
    i <= length t
    /\ text_queue a = stream [skipn i t]
    /\ Session.chars_to_send a = chars (skipn i t)
    /\ Session.chars_received a = []
    /\ chunked_text_queue a = [].
Proof.
  unfold on_connection_closed, get_remaining_chars_to_send.
  destruct (continue_point (chars t) chars_received) as [[i|]|e] eqn:C;
    intro H; inversion H; subst; clear H; simpl.
  - exists i.
    assert (skipn i (chars t) = chars (skipn i t)) as K
      by (unfold chars; apply skipn_map).
    rewrite K, join_chars. split; [|repeat split].
    unfold continue_point in C. apply for_loop_stop in C.
    destruct C as (_ & c & Hc & _).
    assert (nth_error (map custom_decode (chars t)) (i - 0) <> None) as B
      by congruence.
    apply nth_error_Some in B. unfold chars in B.
    rewrite !length_map in B. lia.
  - exists (length t). rewrite skipn_all. repeat split. lia.
Qed.

Lemma retry_sends_the_rest_of_the_text_witness :
  exists i : nat,
    i <= length (lit "Hello world ")
    /\ text_queue (mkAttempt [Some (lit " world "); None]
                             (chars (lit " world ")) [] [])
       = stream [skipn i (lit "Hello world ")]
    /\ Session.chars_to_send
         (mkAttempt [Some (lit " world "); None]
                    (chars (lit " world ")) [] [])
       = chars (skipn i (lit "Hello world "))
    /\ Session.chars_received
         (mkAttempt [Some (lit " world "); None]
                    (chars (lit " world ")) [] [])
       = []
    /\ chunked_text_queue
         (mkAttempt [Some (lit " world "); None]
                    (chars (lit " world ")) [] [])
       = [].
Proof.
  apply (retry_sends_the_rest_of_the_text
           (lit "Hello world ") (chars (lit " Hello"))).
  vm_compute. reflexivity.
Defined.

Lemma last_n_length {A : Type} (n : nat) (l : list A) :
  length (last_n n l) = Nat.min n (length l).
Proof. unfold last_n. rewrite length_skipn. lia. Qed.

Lemma last_n_last {A : Type} (n : nat) (l : list A) (x : A) :
  0 < n -> exists front, last_n n (l ++ [x]) = front ++ [x].
Proof.
  intro P. unfold last_n. rewrite length_app. simpl.
  rewrite skipn_app.
  replace (length l + 1 - n - length l) with 0 by lia.
  simpl. eexists. reflexivity.
Qed.

(** X22: the history handed on with a query.  In [local/sandbox.py] it
    is the tail of the history with the query appended: ten messages at
    most, the query last.  In [server/chatbot.py] it is the whole
    history with the query while that has ten messages at most, and the
    query alone beyond. *)
Theorem history_is_cut_and_ends_with_the_query
        {A : Type} (messages : list A) (query : A) :
  (length (with_query messages query) <= 10
   /\ (exists front, with_query messages query = front ++ [query])
   /\ exists dropped, messages ++ [query]
                      = dropped ++ with_query messages query)
  /\ (length messages < 10 ->
      server_with_query messages query = messages ++ [query])
  /\ (10 <= length messages ->
      server_with_query messages query = [query]).
Proof.
  unfold with_query, server_with_query. cbv zeta.
  rewrite length_app. simpl.
  split; [|split].
  - destruct (10 <? length messages + 1) eqn:L.
    + apply Nat.ltb_lt in L. split; [rewrite last_n_length; lia|].
      split; [apply last_n_last; lia|].
      unfold last_n. eexists. symmetry. apply firstn_skipn.
    + apply Nat.ltb_ge in L. split; [rewrite length_app; simpl; lia|].
      split; [eexists; reflexivity|]. exists []. reflexivity.
  - intro L. replace (10 <? length messages + 1) with false
      by (symmetry; apply Nat.ltb_ge; lia). reflexivity.
  - intro L. replace (10 <? length messages + 1) with true
      by (symmetry; apply Nat.ltb_lt; lia).
    unfold last_n. rewrite length_app. simpl.
    rewrite skipn_app.
    replace (length messages + 1 - 1) with (length messages) by lia.
    rewrite skipn_all, Nat.sub_diag. reflexivity.
Qed.

Lemma history_is_cut_and_ends_with_the_query_witness :
  server_with_query (seq 0 10) 10 = [10].
Proof.
  apply (proj2 (proj2 (history_is_cut_and_ends_with_the_query
                         (seq 0 10) 10))).
  simpl. lia.
Defined.

End SessionFacts.
